(** * Bitsets of jrick/bitset: a shallow embedding of [bitset.go]

    The package has three bitsets: [Words] (a slice of machine words),
    [Bytes] (a slice of bytes) and [Sparse] (a map from word index to
    word).  The file holds the package in its [int]-indexed form and in an
    [uint]-indexed form; both are embedded here, the second under
    [UintVariant].

    Go's fixed-width integers are integers of [Z] with the wrap-around
    written out; a slice is a list; a map is a [gmap]; an operation that
    may panic returns a [result]. *)

From Stdlib Require Import ZArith Lia Bool.
From stdpp Require Import base option list gmap.

Local Open Scope Z_scope.

(** ** Run-time panics *)

Inductive result (A : Type) : Type :=
  | Ok (x : A)
  | Panic.
Arguments Ok {A} x.
Arguments Panic {A}.

#[global] Instance result_ret : MRet result := fun A x => Ok x.
#[global] Instance result_bind : MBind result := fun A B f r =>
  match r with
  | Ok x => f x
  | Panic => Panic
  end.

(** ** The target platform and the integer types *)

Inductive Arch : Set := Arch32 | Arch64.

(** Width of [uintptr]. *)
Definition uintptrBits (a : Arch) : Z :=
  match a with Arch32 => 32 | Arch64 => 64 end.

(** Width of [int] and [uint]: the pointer width on the platforms of the
    Go compiler. *)
Definition intBits (a : Arch) : Z := uintptrBits a.

Definition maxInt (a : Arch) : Z := 2 ^ (intBits a - 1) - 1.
Definition minInt (a : Arch) : Z := - 2 ^ (intBits a - 1).

(** [i] is a value of type [int]. *)
Definition is_int (a : Arch) (i : Z) : Prop := minInt a <= i <= maxInt a.

(** [u] is a value of type [uint]. *)
Definition is_uint (a : Arch) (u : Z) : Prop := 0 <= u < 2 ^ intBits a.

(** Conversions [uint(x)], [int(x)], [uintptr(x)], [byte(x)]: truncation
    to the width, read unsigned or in two's complement. *)
Definition to_uint (a : Arch) (x : Z) : Z := x mod 2 ^ intBits a.
Definition to_int (a : Arch) (x : Z) : Z :=
  (x + 2 ^ (intBits a - 1)) mod 2 ^ intBits a - 2 ^ (intBits a - 1).
Definition to_uintptr (a : Arch) (x : Z) : Z := x mod 2 ^ uintptrBits a.
Definition to_byte (x : Z) : Z := x mod 2 ^ 8.

(** Arithmetic of [int] and of [uint] wraps around. *)
Definition int_add (a : Arch) (x y : Z) : Z := to_int a (x + y).
Definition int_sub (a : Arch) (x y : Z) : Z := to_int a (x - y).
Definition uint_add (a : Arch) (x y : Z) : Z := to_uint a (x + y).
Definition uint_sub (a : Arch) (x y : Z) : Z := to_uint a (x - y).

(** ** The constants of the package *)

(** [wordBits = 32 << uint(^uintptr(0)>>63)] *)
Definition wordBits (a : Arch) : Z :=
  Z.shiftl 32 (Z.shiftr (to_uintptr a (Z.lnot 0)) 63).

(** [wordModMask = wordBits - 1] *)
Definition wordModMask (a : Arch) : Z := wordBits a - 1.

(** [wordShift = (1<<7 + wordBits) >> 5] *)
Definition wordShift (a : Arch) : Z :=
  Z.shiftr (Z.shiftl 1 7 + wordBits a) 5.

Definition byteModMask : Z := 7.
Definition byteShift : Z := 3.

(** ** Slices

    A slice is the list of its elements.  A length is an [int]: [make]
    panics on a length that is negative or does not fit, [append] on a
    total length that does not fit, and indexing out of range panics.
    [make] and [append] are those of a run that has the memory it asks
    for; the run time may refuse a length within [int] that it has no
    memory for, so a statement about the slice an allocation returns
    takes the return as a hypothesis. *)

Definition len {A : Type} (s : list A) : Z := Z.of_nat (length s).

Definition make (a : Arch) (n : Z) : result (list Z) :=
  if (n <? 0) || (maxInt a <? n) then Panic
  else Ok (replicate (Z.to_nat n) 0).

Definition append (a : Arch) (s t : list Z) : result (list Z) :=
  if len s + len t <=? maxInt a then Ok (s ++ t) else Panic.

(** [s[k]] as a value. *)
Definition index (s : list Z) (k : Z) : result Z :=
  if k <? 0 then Panic
  else match s !! Z.to_nat k with
       | Some x => Ok x
       | None => Panic
       end.

(** [s[k] = x]. *)
Definition store (s : list Z) (k x : Z) : result (list Z) :=
  if (0 <=? k) && (k <? len s) then Ok (<[Z.to_nat k := x]> s) else Panic.

(** A slice the run time can hold: its length is an [int]. *)
Definition wf_slice (a : Arch) (s : list Z) : Prop := len s <= maxInt a.

(** ** [Words]: a bitset backed by a slice of machine words *)

Module Words.
Section Defs.
Context (a : Arch).

(** The single-bit mask [1 << (uint(i) & wordModMask)], of type
    [uintptr]. *)
Definition bit (i : Z) : Z :=
  to_uintptr a (Z.shiftl 1 (Z.land (to_uint a i) (wordModMask a))).

(** The word index [uint(i)>>wordShift]. *)
Definition word (i : Z) : Z := Z.shiftr (to_uint a i) (wordShift a).

Definition NewWords (numBits : Z) : result (list Z) :=
  make a (Z.shiftr (int_add a numBits (wordModMask a)) (wordShift a)).

Definition Get (w : list Z) (i : Z) : result bool :=
  x ← index w (word i);
  mret (negb (Z.land x (bit i) =? 0)).

Definition Set_ (w : list Z) (i : Z) : result (list Z) :=
  x ← index w (word i);
  store w (word i) (Z.lor x (bit i)).

Definition Unset (w : list Z) (i : Z) : result (list Z) :=
  x ← index w (word i);
  store w (word i) (Z.ldiff x (bit i)).

Definition SetBool (w : list Z) (i : Z) (b : bool) : result (list Z) :=
  if b then Set_ w i else Unset w i.

Definition Grow (w : list Z) (numBits : Z) : result (list Z) :=
  let words := w in
  let targetLen :=
    Z.shiftr (int_add a numBits (wordModMask a)) (wordShift a) in
  let missing := int_sub a targetLen (len words) in
  if (0 <? missing) && (missing <=? targetLen) then
    z ← make a missing;
    append a words z
  else Ok w.

(** The number of bits the set can hold: the length times the word
    size. *)
Definition capacity (w : list Z) : Z := len w * wordBits a.
End Defs.
End Words.

(** ** [Bytes]: a bitset backed by a slice of bytes *)

Module Bytes.
Section Defs.
Context (a : Arch).

(** [1 << (uint(i) & byteModMask)], of type [byte]. *)
Definition bit (i : Z) : Z :=
  to_byte (Z.shiftl 1 (Z.land (to_uint a i) byteModMask)).

(** The byte index [uint(i)>>byteShift]. *)
Definition byte (i : Z) : Z := Z.shiftr (to_uint a i) byteShift.

Definition NewBytes (numBits : Z) : result (list Z) :=
  make a (Z.shiftr (int_add a numBits byteModMask) byteShift).

Definition Get (s : list Z) (i : Z) : result bool :=
  x ← index s (byte i);
  mret (negb (Z.land x (bit i) =? 0)).

Definition Set_ (s : list Z) (i : Z) : result (list Z) :=
  x ← index s (byte i);
  store s (byte i) (Z.lor x (bit i)).

Definition Unset (s : list Z) (i : Z) : result (list Z) :=
  x ← index s (byte i);
  store s (byte i) (Z.ldiff x (bit i)).

Definition SetBool (s : list Z) (i : Z) (b : bool) : result (list Z) :=
  if b then Set_ s i else Unset s i.

Definition Grow (s : list Z) (numBits : Z) : result (list Z) :=
  let bytes := s in
  let targetLen := Z.shiftr (int_add a numBits byteModMask) byteShift in
  let missing := int_sub a targetLen (len bytes) in
  if (0 <? missing) && (missing <=? targetLen) then
    z ← make a missing;
    append a bytes z
  else Ok s.

Definition capacity (s : list Z) : Z := len s * 8.
End Defs.
End Bytes.

(** ** [Sparse]: a bitset backed by a map from word index to word

    A [Sparse] is a map made with [make]; reading a key that is absent
    gives the zero word, and no operation panics. *)

Module Sparse.
Section Defs.
Context (a : Arch).

Definition bit (i : Z) : Z :=
  to_uintptr a (Z.shiftl 1 (Z.land (to_uint a i) (wordModMask a))).

(** The key [int(uint(i)>>wordShift)]. *)
Definition key (i : Z) : Z :=
  to_int a (Z.shiftr (to_uint a i) (wordShift a)).

(** [s[k]] as a value: the zero word when [k] is absent. *)
Definition read (s : gmap Z Z) (k : Z) : Z := default 0 (s !! k).

Definition Get (s : gmap Z Z) (i : Z) : bool :=
  negb (Z.land (read s (key i)) (bit i) =? 0).

Definition Set_ (s : gmap Z Z) (i : Z) : gmap Z Z :=
  <[key i := Z.lor (read s (key i)) (bit i)]> s.

Definition Unset (s : gmap Z Z) (i : Z) : gmap Z Z :=
  let wordKey := key i in
  match s !! wordKey with
  | None => s
  | Some word =>
      let word := Z.ldiff word (bit i) in
      if word =? 0 then delete wordKey s
      else <[wordKey := word]> s
  end.

Definition SetBool (s : gmap Z Z) (i : Z) (b : bool) : gmap Z Z :=
  if b then Set_ s i else Unset s i.

(** The calls of the [BitSet] interface, and the map and the answer a
    call leaves. *)
Inductive call : Set :=
  | CGet (i : Z)
  | CSet (i : Z)
  | CUnset (i : Z)
  | CSetBool (i : Z) (b : bool).

Definition exec (c : call) (s : gmap Z Z) : gmap Z Z * option bool :=
  match c with
  | CGet i => (s, Some (Get s i))
  | CSet i => (Set_ s i, None)
  | CUnset i => (Unset s i, None)
  | CSetBool i b => (SetBool s i b, None)
  end.

(** A key is present exactly when its word is not zero. *)
Definition compact (s : gmap Z Z) : Prop :=
  ∀ k : Z, is_Some (s !! k) ↔ read s k ≠ 0.
End Defs.
End Sparse.

(** ** The [uint]-indexed form of the dense bitsets *)

Module UintVariant.
Module Words.
Section Defs.
Context (a : Arch).

Definition bit (i : Z) : Z :=
  to_uintptr a (Z.shiftl 1 (Z.land i (wordModMask a))).

Definition NewWords (numBits : Z) : result (list Z) :=
  make a (Z.shiftr (uint_add a numBits (wordModMask a)) (wordShift a)).

Definition Get (w : list Z) (i : Z) : result bool :=
  x ← index w (Z.shiftr i (wordShift a));
  mret (negb (Z.land x (bit i) =? 0)).

Definition Set_ (w : list Z) (i : Z) : result (list Z) :=
  x ← index w (Z.shiftr i (wordShift a));
  store w (Z.shiftr i (wordShift a)) (Z.lor x (bit i)).

Definition Unset (w : list Z) (i : Z) : result (list Z) :=
  x ← index w (Z.shiftr i (wordShift a));
  store w (Z.shiftr i (wordShift a)) (Z.ldiff x (bit i)).

Definition Grow (w : list Z) (numBits : Z) : result (list Z) :=
  let words := w in
  let targetLen :=
    Z.shiftr (uint_add a numBits (wordModMask a)) (wordShift a) in
  let missing := uint_sub a targetLen (to_uint a (len words)) in
  if negb (missing =? 0) then
    z ← make a missing;
    append a words z
  else Ok w.
End Defs.
End Words.

Module Bytes.
Section Defs.
Context (a : Arch).

Definition NewBytes (numBits : Z) : result (list Z) :=
  make a (Z.shiftr (uint_add a numBits byteModMask) byteShift).

Definition Get (s : list Z) (i : Z) : result bool :=
  x ← index s (Z.shiftr i byteShift);
  mret (negb (Z.land x (to_byte (Z.shiftl 1 (Z.land i byteModMask))) =? 0)).

Definition Grow (s : list Z) (numBits : Z) : result (list Z) :=
  let bytes := s in
  let targetLen := Z.shiftr (uint_add a numBits byteModMask) byteShift in
  let missing := uint_sub a targetLen (to_uint a (len bytes)) in
  if negb (missing =? 0) then
    z ← make a missing;
    append a bytes z
  else Ok s.
End Defs.
End Bytes.
End UintVariant.

(** ** The algorithm the dense bitsets share

    [Words] and [Bytes] run one algorithm at two element widths.  [Dense]
    is that algorithm over a shift [n] and an element width [eb], on an
    index already converted to [uint]; the lemmas [*_dense] below show
    that each method of [Words] and [Bytes] is an instance of it. *)

Module Dense.
Section Defs.
Context (a : Arch) (n eb : Z).

Definition mask : Z := 2 ^ n - 1.
Definition bit (u : Z) : Z := Z.shiftl 1 (Z.land u mask) mod 2 ^ eb.
Definition slot (u : Z) : Z := Z.shiftr u n.

Definition New (numBits : Z) : result (list Z) :=
  make a (Z.shiftr (int_add a numBits mask) n).

Definition Get (s : list Z) (u : Z) : result bool :=
  x ← index s (slot u);
  mret (negb (Z.land x (bit u) =? 0)).

Definition Set_ (s : list Z) (u : Z) : result (list Z) :=
  x ← index s (slot u);
  store s (slot u) (Z.lor x (bit u)).

Definition Unset (s : list Z) (u : Z) : result (list Z) :=
  x ← index s (slot u);
  store s (slot u) (Z.ldiff x (bit u)).

Definition Grow (s : list Z) (numBits : Z) : result (list Z) :=
  let targetLen := Z.shiftr (int_add a numBits mask) n in
  let missing := int_sub a targetLen (len s) in
  if (0 <? missing) && (missing <=? targetLen) then
    z ← make a missing;
    append a s z
  else Ok s.

(** [Grow] of the [uint]-indexed form. *)
Definition UGrow (s : list Z) (numBits : Z) : result (list Z) :=
  let targetLen := Z.shiftr (uint_add a numBits mask) n in
  let missing := uint_sub a targetLen (to_uint a (len s)) in
  if negb (missing =? 0) then
    z ← make a missing;
    append a s z
  else Ok s.
End Defs.
End Dense.

(** ** The [BitSet] interface and its users

    [BitSet] is the method set the three bitsets share; the interface
    with [Grow] is the one the growers of the test file satisfy.  A
    [Sparse] method cannot panic and is wrapped in [Ok]. *)

Module BitSet.
Class BitSet (T : Type) : Type := {
  Get : T → Z → result bool;
  Set_ : T → Z → result T;
  Unset : T → Z → result T;
  SetBool : T → Z → bool → result T
}.

(** [interface { BitSet; Grow(int) }] *)
Class Grower (T : Type) : Type := {
  Grower_BitSet : BitSet T;
  Grow : T → Z → result T
}.
End BitSet.

Definition Words_BitSet (a : Arch) : BitSet.BitSet (list Z) :=
  {| BitSet.Get := Words.Get a;
     BitSet.Set_ := Words.Set_ a;
     BitSet.Unset := Words.Unset a;
     BitSet.SetBool := Words.SetBool a |}.

Definition Bytes_BitSet (a : Arch) : BitSet.BitSet (list Z) :=
  {| BitSet.Get := Bytes.Get a;
     BitSet.Set_ := Bytes.Set_ a;
     BitSet.Unset := Bytes.Unset a;
     BitSet.SetBool := Bytes.SetBool a |}.

Definition Sparse_BitSet (a : Arch) : BitSet.BitSet (gmap Z Z) :=
  {| BitSet.Get := fun s i => Ok (Sparse.Get a s i);
     BitSet.Set_ := fun s i => Ok (Sparse.Set_ a s i);
     BitSet.Unset := fun s i => Ok (Sparse.Unset a s i);
     BitSet.SetBool := fun s i b => Ok (Sparse.SetBool a s i b) |}.

Definition Words_Grower (a : Arch) : BitSet.Grower (list Z) :=
  {| BitSet.Grower_BitSet := Words_BitSet a; BitSet.Grow := Words.Grow a |}.

Definition Bytes_Grower (a : Arch) : BitSet.Grower (list Z) :=
  {| BitSet.Grower_BitSet := Bytes_BitSet a; BitSet.Grow := Bytes.Grow a |}.

(** [bits[k]] on a slice of booleans. *)
Definition indexB (bits : list bool) (k : Z) : result bool :=
  if k <? 0 then Panic
  else match bits !! Z.to_nat k with
       | Some b => Ok b
       | None => Panic
       end.

Module Users.
Section Defs.
Context {T : Type} (B : BitSet.BitSet T).

(** [for bit, val := range bits { bitset.SetBool(bit, val) }], from index
    [bit] on. *)
Fixpoint setBools (s : T) (bit : Z) (bits : list bool) : result T :=
  match bits with
  | [] => Ok s
  | val :: rest =>
      s ← BitSet.SetBool s bit val;
      setBools s (bit + 1) rest
  end.

(** [for bit, exp := range bits { got := bitset.Get(bit); if exp != got
    { t.Errorf(...); continue nextBitSet } }]: [Ok true] when no error is
    reported. *)
Fixpoint checkBools (s : T) (bit : Z) (bits : list bool) : result bool :=
  match bits with
  | [] => Ok true
  | exp :: rest =>
      got ← BitSet.Get s bit;
      if eqb exp got then checkBools s (bit + 1) rest else Ok false
  end.

(** The first loop of [TestInRange]: [SetBool] each bit and read it back;
    [None] when an error is reported. *)
Fixpoint setAndCheck (s : T) (bit : Z) (bitsToSet : list bool)
    : result (option T) :=
  match bitsToSet with
  | [] => Ok (Some s)
  | testVal :: rest =>
      s ← BitSet.SetBool s bit testVal;
      got ← BitSet.Get s bit;
      if eqb got testVal then setAndCheck s (bit + 1) rest else Ok None
  end.

(** The second loop of [TestInRange]: [exp := bitsToSet[bit] && !unset],
    [SetBool(bit, exp)], and read it back. *)
Fixpoint unsetAndCheck (bitsToSet : list bool) (s : T) (bit : Z)
    (bitsToUnset : list bool) : result bool :=
  match bitsToUnset with
  | [] => Ok true
  | unset :: rest =>
      v ← indexB bitsToSet bit;
      let exp := v && negb unset in
      s ← BitSet.SetBool s bit exp;
      got ← BitSet.Get s bit;
      if eqb got exp then unsetAndCheck bitsToSet s (bit + 1) rest
      else Ok false
  end.

(** The body of [TestInRange] for one bitset: [Ok true] when no error is
    reported. *)
Definition inRange (s : T) (bitsToSet bitsToUnset : list bool)
    : result bool :=
  r ← setAndCheck s 0 bitsToSet;
  match r with
  | None => Ok false
  | Some s => unsetAndCheck bitsToSet s 0 bitsToUnset
  end.

(** The calls of the interface in a row: the set they leave and the
    answers of the [Get] calls, in order. *)
Fixpoint run (cs : list Sparse.call) (s : T) : result (T * list bool) :=
  match cs with
  | [] => Ok (s, [])
  | Sparse.CGet i :: rest =>
      b ← BitSet.Get s i;
      r ← run rest s;
      Ok (r.1, b :: r.2)
  | Sparse.CSet i :: rest =>
      s ← BitSet.Set_ s i;
      run rest s
  | Sparse.CUnset i :: rest =>
      s ← BitSet.Unset s i;
      run rest s
  | Sparse.CSetBool i b :: rest =>
      s ← BitSet.SetBool s i b;
      run rest s
  end.
End Defs.

(** The body of [TestGrowing] for one grower: set the initial bits,
    [Grow], set the bits of [bitSets] and read them back. *)
Definition growing {T : Type} (G : BitSet.Grower T) (s : T)
    (initialBits : list bool) (newNumBits : Z) (bitSets : list bool)
    : result bool :=
  s ← setBools BitSet.Grower_BitSet s 0 initialBits;
  s ← BitSet.Grow s newNumBits;
  s ← setBools BitSet.Grower_BitSet s 0 bitSets;
  checkBools BitSet.Grower_BitSet s 0 bitSets.

(** The index a call names. *)
Definition call_index (c : Sparse.call) : Z :=
  match c with
  | Sparse.CGet i | Sparse.CSet i | Sparse.CUnset i
  | Sparse.CSetBool i _ => i
  end.
End Users.

(** What the three bitsets have in common, over the indexes [addr] a set
    can address and a [shape] no method changes: [Get] answers, [Set] and
    [Unset] succeed, keep the shape and the addressable indexes, and
    change the answer of the one bit only. *)
Record Lawful {T : Type} (B : BitSet.BitSet T) (addr : T → Z → Prop)
    (shape : T → Z) : Prop := {
  law_get : ∀ s i, addr s i → ∃ b, BitSet.Get s i = Ok b;
  law_set : ∀ s i, addr s i →
    ∃ s', BitSet.Set_ s i = Ok s'
          ∧ shape s' = shape s
          ∧ (∀ j, addr s' j ↔ addr s j)
          ∧ (∀ j, addr s j →
               BitSet.Get s' j
               = if decide (i = j) then Ok true else BitSet.Get s j);
  law_unset : ∀ s i, addr s i →
    ∃ s', BitSet.Unset s i = Ok s'
          ∧ shape s' = shape s
          ∧ (∀ j, addr s' j ↔ addr s j)
          ∧ (∀ j, addr s j →
               BitSet.Get s' j
               = if decide (i = j) then Ok false else BitSet.Get s j);
  law_setbool : ∀ s i b,
    BitSet.SetBool s i b = if b then BitSet.Set_ s i else BitSet.Unset s i
}.

(** The shared algorithm as a [BitSet] and as a grower. *)
Definition Dense_BitSet (a : Arch) (n eb : Z) : BitSet.BitSet (list Z) :=
  {| BitSet.Get := fun s i => Dense.Get n eb s (to_uint a i);
     BitSet.Set_ := fun s i => Dense.Set_ n eb s (to_uint a i);
     BitSet.Unset := fun s i => Dense.Unset n eb s (to_uint a i);
     BitSet.SetBool := fun s i (b : bool) =>
       if b then Dense.Set_ n eb s (to_uint a i)
       else Dense.Unset n eb s (to_uint a i) |}.

Definition Dense_Grower (a : Arch) (n eb : Z) : BitSet.Grower (list Z) :=
  {| BitSet.Grower_BitSet := Dense_BitSet a n eb;
     BitSet.Grow := Dense.Grow a n |}.

Definition Dense_addr (a : Arch) (n : Z) (s : list Z) (i : Z) : Prop :=
  is_int a i ∧ Dense.slot n (to_uint a i) < len s.

(** The indexes a dense set and a [Sparse] can address. *)
Definition Words_addr (a : Arch) (w : list Z) (i : Z) : Prop :=
  is_int a i ∧ Words.word a i < len w.
Definition Bytes_addr (a : Arch) (s : list Z) (i : Z) : Prop :=
  is_int a i ∧ Bytes.byte a i < len s.
Definition Sparse_addr (a : Arch) (s : gmap Z Z) (i : Z) : Prop :=
  is_int a i.

(** * Properties *)

(** ** The constants *)

Lemma wordBits_eq (a : Arch) : wordBits a = uintptrBits a.
Proof. destruct a; reflexivity. Qed.

Lemma wordShift_eq (a : Arch) :
  wordShift a = match a with Arch32 => 5 | Arch64 => 6 end.
Proof. destruct a; reflexivity. Qed.

Lemma wordShift_pow (a : Arch) : 2 ^ wordShift a = wordBits a.
Proof. destruct a; reflexivity. Qed.

Lemma wordModMask_eq (a : Arch) : wordModMask a = 2 ^ wordShift a - 1.
Proof. destruct a; reflexivity. Qed.

Lemma wordShift_range (a : Arch) : 0 <= wordShift a < intBits a - 1.
Proof. destruct a; cbv; split; congruence. Qed.

Lemma intBits_pos (a : Arch) : 8 < intBits a.
Proof. destruct a; reflexivity. Qed.

(** ** Each method is an instance of the shared algorithm *)

Lemma Words_bit_dense a i :
  Words.bit a i = Dense.bit (wordShift a) (uintptrBits a) (to_uint a i).
Proof. destruct a; reflexivity. Qed.

Lemma Words_Get_dense a w i :
  Words.Get a w i = Dense.Get (wordShift a) (uintptrBits a) w (to_uint a i).
Proof. destruct a; reflexivity. Qed.

Lemma Words_Set_dense a w i :
  Words.Set_ a w i = Dense.Set_ (wordShift a) (uintptrBits a) w (to_uint a i).
Proof. destruct a; reflexivity. Qed.

Lemma Words_Unset_dense a w i :
  Words.Unset a w i
  = Dense.Unset (wordShift a) (uintptrBits a) w (to_uint a i).
Proof. destruct a; reflexivity. Qed.

Lemma Words_New_dense a m :
  Words.NewWords a m = Dense.New a (wordShift a) m.
Proof. destruct a; reflexivity. Qed.

Lemma Words_Grow_dense a w m :
  Words.Grow a w m = Dense.Grow a (wordShift a) w m.
Proof. destruct a; reflexivity. Qed.

Lemma Bytes_Get_dense a s i :
  Bytes.Get a s i = Dense.Get byteShift 8 s (to_uint a i).
Proof. reflexivity. Qed.

Lemma Bytes_Set_dense a s i :
  Bytes.Set_ a s i = Dense.Set_ byteShift 8 s (to_uint a i).
Proof. reflexivity. Qed.

Lemma Bytes_Unset_dense a s i :
  Bytes.Unset a s i = Dense.Unset byteShift 8 s (to_uint a i).
Proof. reflexivity. Qed.

Lemma Bytes_New_dense a m : Bytes.NewBytes a m = Dense.New a byteShift m.
Proof. reflexivity. Qed.

Lemma Bytes_Grow_dense a s m : Bytes.Grow a s m = Dense.Grow a byteShift s m.
Proof. reflexivity. Qed.

Lemma UWords_Grow_dense a w m :
  UintVariant.Words.Grow a w m = Dense.UGrow a (wordShift a) w m.
Proof. destruct a; reflexivity. Qed.

Lemma UBytes_Grow_dense a s m :
  UintVariant.Bytes.Grow a s m = Dense.UGrow a byteShift s m.
Proof. reflexivity. Qed.

(** ** Slices *)

Lemma index_Ok (s : list Z) (k x : Z) :
  index s k = Ok x ↔ 0 <= k ∧ s !! Z.to_nat k = Some x.
Proof.
  unfold index. destruct (Z.ltb_spec k 0) as [Hk|Hk].
  - split; [discriminate | lia].
  - destruct (s !! Z.to_nat k) as [y|]; split.
    + intros [= ->]. auto.
    + intros [_ [= ->]]. reflexivity.
    + discriminate.
    + intros [_ [=]].
Qed.

Lemma index_lt (s : list Z) (k : Z) :
  0 <= k < len s → ∃ x, index s k = Ok x.
Proof.
  intros [H0 H1]. unfold len in H1.
  destruct (lookup_lt_is_Some_2 s (Z.to_nat k)) as [x Hx]; [lia|].
  exists x. apply index_Ok. auto.
Qed.

Lemma index_Panic (s : list Z) (k : Z) :
  index s k = Panic ↔ k < 0 ∨ len s <= k.
Proof.
  unfold index, len. destruct (Z.ltb_spec k 0) as [Hk|Hk].
  - split; auto.
  - destruct (s !! Z.to_nat k) as [y|] eqn:E; split.
    + discriminate.
    + intros [?|Hl]; [lia|].
      apply lookup_lt_Some in E. lia.
    + intros _. right. apply lookup_ge_None in E. lia.
    + reflexivity.
Qed.

Lemma store_Ok (s : list Z) (k y : Z) :
  0 <= k < len s → store s k y = Ok (<[Z.to_nat k := y]> s).
Proof.
  intros [H0 H1]. unfold store.
  destruct (Z.leb_spec 0 k); [|lia]. destruct (Z.ltb_spec k (len s)); [|lia].
  reflexivity.
Qed.

Lemma store_Panic (s : list Z) (k y : Z) :
  k < 0 ∨ len s <= k → store s k y = Panic.
Proof.
  intros H. unfold store.
  destruct (Z.leb_spec 0 k); [|reflexivity].
  destruct (Z.ltb_spec k (len s)); [lia|reflexivity].
Qed.

Lemma len_insert (s : list Z) (k : nat) (y : Z) : len (<[k := y]> s) = len s.
Proof. unfold len. by rewrite length_insert. Qed.

Lemma index_insert_eq (s : list Z) (k y : Z) :
  0 <= k < len s → index (<[Z.to_nat k := y]> s) k = Ok y.
Proof.
  intros [H0 H1]. apply index_Ok. split; [done|].
  apply list_lookup_insert_eq. unfold len in H1. lia.
Qed.

Lemma index_insert_ne (s : list Z) (k k' y : Z) :
  0 <= k → 0 <= k' → k ≠ k' →
  index (<[Z.to_nat k := y]> s) k' = index s k'.
Proof.
  intros H0 H0' Hne. unfold index.
  rewrite list_lookup_insert_ne by lia. reflexivity.
Qed.

Lemma len_app (s t : list Z) : len (s ++ t) = len s + len t.
Proof. unfold len. rewrite length_app. lia. Qed.

Lemma len_replicate (k : Z) (x : Z) :
  0 <= k → len (replicate (Z.to_nat k) x) = k.
Proof. intros Hk. unfold len. rewrite length_replicate. lia. Qed.

Lemma len_nonneg {A : Type} (s : list A) : 0 <= len s.
Proof. unfold len. lia. Qed.

Lemma index_app_l (s t : list Z) (k : Z) :
  k < len s → index (s ++ t) k = index s k.
Proof.
  intros Hk. unfold index. destruct (Z.ltb_spec k 0); [done|].
  rewrite lookup_app_l; [done|]. unfold len in Hk. lia.
Qed.

Lemma index_app_zeros (s : list Z) (c : nat) (k : Z) :
  len s <= k < len s + Z.of_nat c →
  index (s ++ replicate c 0) k = Ok 0.
Proof.
  intros [H1 H2]. apply index_Ok. unfold len in *. split; [lia|].
  rewrite lookup_app_r by lia.
  apply lookup_replicate_2. lia.
Qed.

Lemma index_zeros (c : nat) (k : Z) :
  0 <= k < Z.of_nat c → index (replicate c 0) k = Ok 0.
Proof.
  intros [H1 H2]. apply index_Ok. split; [done|].
  apply lookup_replicate_2. lia.
Qed.

(** ** Single bits of an integer *)

Lemma test_pow2 (x b : Z) :
  0 <= b → negb (Z.land x (2 ^ b) =? 0) = Z.testbit x b.
Proof.
  intros Hb.
  assert (Z.land x (2 ^ b) = if Z.testbit x b then 2 ^ b else 0) as ->.
  { apply Z.bits_inj'. intros m Hm.
    rewrite Z.land_spec, Z.pow2_bits_eqb by done.
    destruct (Z.eqb_spec b m) as [->|Hne].
    - destruct (Z.testbit x m); simpl; [by rewrite Z.pow2_bits_true|].
      by rewrite Z.bits_0.
    - rewrite andb_false_r.
      destruct (Z.testbit x b); [|by rewrite Z.bits_0].
      rewrite Z.pow2_bits_false; [done|lia]. }
  destruct (Z.testbit x b); [|reflexivity].
  assert (0 < 2 ^ b) by (apply Z.pow_pos_nonneg; lia).
  destruct (Z.eqb_spec (2 ^ b) 0); [lia|reflexivity].
Qed.

Lemma testbit_lor_pow2 (x b c : Z) :
  0 <= b → 0 <= c →
  Z.testbit (Z.lor x (2 ^ b)) c = Z.testbit x c || (b =? c).
Proof. intros Hb Hc. by rewrite Z.lor_spec, Z.pow2_bits_eqb. Qed.

Lemma testbit_ldiff_pow2 (x b c : Z) :
  0 <= b → 0 <= c →
  Z.testbit (Z.ldiff x (2 ^ b)) c = Z.testbit x c && negb (b =? c).
Proof. intros Hb Hc. by rewrite Z.ldiff_spec, Z.pow2_bits_eqb. Qed.

Lemma lor_pow2_idem (x m : Z) : Z.lor (Z.lor x m) m = Z.lor x m.
Proof. by rewrite <- Z.lor_assoc, Z.lor_diag. Qed.

Lemma ldiff_idem (x m : Z) : Z.ldiff (Z.ldiff x m) m = Z.ldiff x m.
Proof.
  apply Z.bits_inj'. intros k Hk. rewrite !Z.ldiff_spec.
  destruct (Z.testbit x k), (Z.testbit m k); reflexivity.
Qed.

(** ** The shared algorithm: reading and writing one bit *)

Section DenseLaws.
Context (n eb : Z).
Hypothesis Hn : 0 <= n.
Hypothesis Heb : 2 ^ n <= eb.

Lemma pow_n_pos : 0 < 2 ^ n.
Proof using Hn. apply Z.pow_pos_nonneg; lia. Qed.

Lemma off_range (u : Z) : 0 <= u mod 2 ^ n < 2 ^ n.
Proof using Hn. apply Z.mod_pos_bound, pow_n_pos. Qed.

Lemma bit_pow (u : Z) : Dense.bit n eb u = 2 ^ (u mod 2 ^ n).
Proof using Hn Heb.
  unfold Dense.bit, Dense.mask.
  replace (2 ^ n - 1) with (Z.ones n) by (rewrite Z.ones_equiv; lia).
  rewrite Z.land_ones by done.
  pose proof (off_range u) as Ho.
  rewrite Z.shiftl_1_l. apply Z.mod_small. split.
  - apply Z.pow_nonneg. lia.
  - apply Z.pow_lt_mono_r; lia.
Qed.

Lemma slot_div (u : Z) : Dense.slot n u = u / 2 ^ n.
Proof using Hn. unfold Dense.slot. by rewrite Z.shiftr_div_pow2. Qed.

Lemma slot_nonneg (u : Z) : 0 <= u → 0 <= Dense.slot n u.
Proof using Hn.
  intros Hu. rewrite slot_div. apply Z.div_pos; [done|apply pow_n_pos].
Qed.

Lemma slot_off_inj (u v : Z) :
  Dense.slot n u = Dense.slot n v → u mod 2 ^ n = v mod 2 ^ n → u = v.
Proof using Hn.
  rewrite !slot_div. intros Hs Ho.
  pose proof pow_n_pos.
  rewrite (Z.div_mod u (2 ^ n)), (Z.div_mod v (2 ^ n)) by lia.
  by rewrite Hs, Ho.
Qed.

(** What [Get] answers once the element is read. *)
Lemma Get_read (s : list Z) (u x : Z) :
  index s (Dense.slot n u) = Ok x →
  Dense.Get n eb s u = Ok (Z.testbit x (u mod 2 ^ n)).
Proof using Hn Heb.
  intros Hx. unfold Dense.Get. rewrite Hx. simpl.
  rewrite bit_pow, test_pow2; [done|]. apply off_range.
Qed.

Lemma Set_write (s : list Z) (u x : Z) :
  0 <= u →
  index s (Dense.slot n u) = Ok x →
  Dense.Set_ n eb s u
  = Ok (<[Z.to_nat (Dense.slot n u) := Z.lor x (2 ^ (u mod 2 ^ n))]> s).
Proof using Hn Heb.
  intros Hu Hx. unfold Dense.Set_. rewrite Hx. simpl.
  rewrite bit_pow. apply store_Ok.
  destruct (index_Panic s (Dense.slot n u)) as [_ Hp].
  pose proof (slot_nonneg u Hu).
  destruct (Z.lt_ge_cases (Dense.slot n u) (len s)); [lia|].
  rewrite Hp in Hx by lia. discriminate.
Qed.

Lemma Unset_write (s : list Z) (u x : Z) :
  0 <= u →
  index s (Dense.slot n u) = Ok x →
  Dense.Unset n eb s u
  = Ok (<[Z.to_nat (Dense.slot n u) := Z.ldiff x (2 ^ (u mod 2 ^ n))]> s).
Proof using Hn Heb.
  intros Hu Hx. unfold Dense.Unset. rewrite Hx. simpl.
  rewrite bit_pow. apply store_Ok.
  destruct (index_Panic s (Dense.slot n u)) as [_ Hp].
  pose proof (slot_nonneg u Hu).
  destruct (Z.lt_ge_cases (Dense.slot n u) (len s)); [lia|].
  rewrite Hp in Hx by lia. discriminate.
Qed.

(** Reading bit [v] after element [slot u] was replaced by [y]. *)
Lemma Get_insert (s : list Z) (u v y : Z) :
  0 <= u → 0 <= v → Dense.slot n u < len s →
  Dense.Get n eb (<[Z.to_nat (Dense.slot n u) := y]> s) v
  = if Dense.slot n u =? Dense.slot n v
    then Ok (Z.testbit y (v mod 2 ^ n))
    else Dense.Get n eb s v.
Proof using Hn Heb.
  intros Hu Hv Hlt.
  pose proof (slot_nonneg u Hu). pose proof (slot_nonneg v Hv).
  destruct (Z.eqb_spec (Dense.slot n u) (Dense.slot n v)) as [E|E].
  - apply Get_read. rewrite <- E. apply index_insert_eq. lia.
  - unfold Dense.Get. by rewrite index_insert_ne.
Qed.

(** Out of range, every method panics. *)
Lemma dense_out_of_range (s : list Z) (u : Z) :
  len s <= Dense.slot n u →
  Dense.Get n eb s u = Panic
  ∧ Dense.Set_ n eb s u = Panic
  ∧ Dense.Unset n eb s u = Panic.
Proof.
  intros Hge.
  assert (index s (Dense.slot n u) = Panic) as Hp
    by (apply index_Panic; auto).
  unfold Dense.Get, Dense.Set_, Dense.Unset. by rewrite Hp.
Qed.

(** [Set] then [Get], [Unset] then [Get]. *)
Lemma dense_set_get (s : list Z) (u : Z) :
  0 <= u → Dense.slot n u < len s →
  ∃ s1, Dense.Set_ n eb s u = Ok s1 ∧ len s1 = len s
        ∧ Dense.Get n eb s1 u = Ok true.
Proof using Hn Heb.
  intros Hu Hlt. pose proof (slot_nonneg u Hu) as H0.
  destruct (index_lt s (Dense.slot n u)) as [x Hx]; [lia|].
  eexists. split; [by apply Set_write|]. split; [apply len_insert|].
  rewrite Get_insert, Z.eqb_refl by done.
  pose proof (off_range u).
  rewrite testbit_lor_pow2, Z.eqb_refl by lia. by rewrite orb_true_r.
Qed.

Lemma dense_unset_get (s : list Z) (u : Z) :
  0 <= u → Dense.slot n u < len s →
  ∃ s1, Dense.Unset n eb s u = Ok s1 ∧ len s1 = len s
        ∧ Dense.Get n eb s1 u = Ok false.
Proof using Hn Heb.
  intros Hu Hlt. pose proof (slot_nonneg u Hu) as H0.
  destruct (index_lt s (Dense.slot n u)) as [x Hx]; [lia|].
  eexists. split; [by apply Unset_write|]. split; [apply len_insert|].
  rewrite Get_insert, Z.eqb_refl by done.
  pose proof (off_range u).
  rewrite testbit_ldiff_pow2, Z.eqb_refl by lia. by rewrite andb_false_r.
Qed.

(** [Set] and [Unset] leave every other bit as it was. *)
Lemma dense_set_other (s : list Z) (u v : Z) :
  0 <= u → 0 <= v → u ≠ v → Dense.slot n u < len s →
  ∃ s1, Dense.Set_ n eb s u = Ok s1
        ∧ Dense.Get n eb s1 v = Dense.Get n eb s v.
Proof using Hn Heb.
  intros Hu Hv Hne Hlt. pose proof (slot_nonneg u Hu) as H0.
  destruct (index_lt s (Dense.slot n u)) as [x Hx]; [lia|].
  eexists. split; [by apply Set_write|].
  rewrite Get_insert by done.
  destruct (Z.eqb_spec (Dense.slot n u) (Dense.slot n v)) as [E|E]; [|done].
  rewrite E in Hx. rewrite (Get_read _ _ _ Hx).
  pose proof (off_range u). pose proof (off_range v).
  rewrite testbit_lor_pow2 by lia.
  destruct (Z.eqb_spec (u mod 2 ^ n) (v mod 2 ^ n)) as [E'|E'].
  - exfalso. apply Hne. by apply slot_off_inj.
  - by rewrite orb_false_r.
Qed.

Lemma dense_unset_other (s : list Z) (u v : Z) :
  0 <= u → 0 <= v → u ≠ v → Dense.slot n u < len s →
  ∃ s1, Dense.Unset n eb s u = Ok s1
        ∧ Dense.Get n eb s1 v = Dense.Get n eb s v.
Proof using Hn Heb.
  intros Hu Hv Hne Hlt. pose proof (slot_nonneg u Hu) as H0.
  destruct (index_lt s (Dense.slot n u)) as [x Hx]; [lia|].
  eexists. split; [by apply Unset_write|].
  rewrite Get_insert by done.
  destruct (Z.eqb_spec (Dense.slot n u) (Dense.slot n v)) as [E|E]; [|done].
  rewrite E in Hx. rewrite (Get_read _ _ _ Hx).
  pose proof (off_range u). pose proof (off_range v).
  rewrite testbit_ldiff_pow2 by lia.
  destruct (Z.eqb_spec (u mod 2 ^ n) (v mod 2 ^ n)) as [E'|E'].
  - exfalso. apply Hne. by apply slot_off_inj.
  - by rewrite andb_true_r.
Qed.

(** A second [Set] or [Unset] of the same bit changes nothing. *)
Lemma dense_set_idem (s : list Z) (u : Z) :
  0 <= u → Dense.slot n u < len s →
  ∃ s1, Dense.Set_ n eb s u = Ok s1 ∧ Dense.Set_ n eb s1 u = Ok s1.
Proof using Hn Heb.
  intros Hu Hlt. pose proof (slot_nonneg u Hu) as H0.
  destruct (index_lt s (Dense.slot n u)) as [x Hx]; [lia|].
  eexists. split; [by apply Set_write|].
  erewrite Set_write; [|done|apply index_insert_eq; lia].
  by rewrite lor_pow2_idem, list_insert_insert_eq.
Qed.

Lemma dense_unset_idem (s : list Z) (u : Z) :
  0 <= u → Dense.slot n u < len s →
  ∃ s1, Dense.Unset n eb s u = Ok s1 ∧ Dense.Unset n eb s1 u = Ok s1.
Proof using Hn Heb.
  intros Hu Hlt. pose proof (slot_nonneg u Hu) as H0.
  destruct (index_lt s (Dense.slot n u)) as [x Hx]; [lia|].
  eexists. split; [by apply Unset_write|].
  erewrite Unset_write; [|done|apply index_insert_eq; lia].
  by rewrite ldiff_idem, list_insert_insert_eq.
Qed.

(** A slice of zeros, and zeros appended to a slice. *)
Lemma dense_get_zeros (c : nat) (u : Z) :
  0 <= u → Dense.slot n u < Z.of_nat c →
  Dense.Get n eb (replicate c 0) u = Ok false.
Proof using Hn Heb.
  intros Hu Hlt. pose proof (slot_nonneg u Hu) as H0.
  rewrite (Get_read _ _ 0); [by rewrite Z.bits_0|].
  apply index_zeros. lia.
Qed.

Lemma dense_get_app_old (s t : list Z) (u : Z) :
  Dense.slot n u < len s →
  Dense.Get n eb (s ++ t) u = Dense.Get n eb s u.
Proof. intros Hlt. unfold Dense.Get. by rewrite index_app_l. Qed.

Lemma dense_get_app_new (s : list Z) (c : nat) (u : Z) :
  len s <= Dense.slot n u < len s + Z.of_nat c →
  Dense.Get n eb (s ++ replicate c 0) u = Ok false.
Proof using Hn Heb.
  intros Hr. rewrite (Get_read _ _ 0); [by rewrite Z.bits_0|].
  by apply index_app_zeros.
Qed.
End DenseLaws.

(** ** Conversions between [int] and [uint] *)

Ltac arch_unfold :=
  unfold is_int, is_uint, wf_slice, to_int, to_uint, int_add, int_sub,
    uint_add, uint_sub, minInt, maxInt, intBits, uintptrBits in *.

Ltac arch_lia a :=
  destruct a; arch_unfold;
  repeat match goal with
         | |- context [2 ^ ?c] =>
             let v := eval vm_compute in (2 ^ c) in change (2 ^ c) with v
         | H : context [2 ^ ?c] |- _ =>
             let v := eval vm_compute in (2 ^ c) in change (2 ^ c) with v in H
         end;
  simpl Z.sub in *; Z.div_mod_to_equations; lia.

Lemma to_int_id (a : Arch) (x : Z) : is_int a x → to_int a x = x.
Proof. intros H. arch_lia a. Qed.

Lemma to_int_wrap_hi (a : Arch) (x : Z) :
  maxInt a < x <= maxInt a + 2 ^ intBits a →
  to_int a x = x - 2 ^ intBits a.
Proof. intros H. arch_lia a. Qed.

Lemma to_int_is_int (a : Arch) (x : Z) : is_int a (to_int a x).
Proof. arch_lia a. Qed.

Lemma to_uint_id (a : Arch) (x : Z) : is_uint a x → to_uint a x = x.
Proof. intros H. arch_lia a. Qed.

Lemma to_uint_nonneg_int (a : Arch) (x : Z) :
  0 <= x <= maxInt a → to_uint a x = x.
Proof. intros H. arch_lia a. Qed.

Lemma to_uint_wrap_lo (a : Arch) (x : Z) :
  - 2 ^ intBits a <= x < 0 → to_uint a x = x + 2 ^ intBits a.
Proof. intros H. arch_lia a. Qed.

Lemma to_uint_is_uint (a : Arch) (x : Z) : is_uint a (to_uint a x).
Proof. arch_lia a. Qed.

Lemma to_uint_inj (a : Arch) (i j : Z) :
  is_int a i → is_int a j → to_uint a i = to_uint a j → i = j.
Proof. intros Hi Hj H. arch_lia a. Qed.

Lemma maxInt_lt_pow (a : Arch) : 2 * maxInt a + 2 = 2 ^ intBits a.
Proof. arch_lia a. Qed.

(** ** The shared algorithm: construction and growth *)

Section GrowLaws.
Context (a : Arch) (n : Z).
Hypothesis Hn : 0 <= n.
Hypothesis Hpow : 2 ^ n <= maxInt a.

Let P := 2 ^ n.

Lemma P_pos : 0 < P.
Proof using Hn. apply Z.pow_pos_nonneg; lia. Qed.

(** The rounded-up length, when the addition does not overflow. *)
Lemma target_exact (m : Z) :
  minInt a <= m → m + Dense.mask n <= maxInt a →
  Z.shiftr (int_add a m (Dense.mask n)) n = (m + P - 1) / P.
Proof using Hn.
  intros Hlo Hhi. pose proof P_pos. unfold int_add.
  rewrite to_int_id, Z.shiftr_div_pow2 by (unfold is_int, Dense.mask in *; fold P; lia).
  unfold Dense.mask. fold P. f_equal. lia.
Qed.

(** The rounded-up length is negative when the addition overflows. *)
Lemma target_overflow (m : Z) :
  m <= maxInt a → maxInt a < m + Dense.mask n →
  Z.shiftr (int_add a m (Dense.mask n)) n < 0.
Proof using Hn Hpow.
  intros Hm Hov. pose proof P_pos. pose proof (maxInt_lt_pow a).
  unfold int_add. unfold Dense.mask in *. fold P in Hpow, Hov |- *.
  rewrite to_int_wrap_hi by lia.
  rewrite Z.shiftr_div_pow2 by done. fold P.
  apply Z.div_lt_upper_bound; lia.
Qed.

Lemma target_le_len (s : list Z) (m : Z) :
  is_int a m → m <= len s * P →
  Z.shiftr (int_add a m (Dense.mask n)) n <= len s.
Proof using Hn Hpow.
  intros [Hlo Hhi] Hcap. pose proof P_pos. pose proof (len_nonneg s).
  destruct (Z.le_gt_cases (m + Dense.mask n) (maxInt a)) as [Hov|Hov].
  - rewrite target_exact by done.
    apply Z.lt_succ_r, Z.div_lt_upper_bound; nia.
  - pose proof (target_overflow m Hhi Hov). lia.
Qed.

(** [Grow] to a size the set already holds changes nothing. *)
Lemma dense_grow_noop (s : list Z) (m : Z) :
  wf_slice a s → is_int a m → m <= len s * P →
  Dense.Grow a n s m = Ok s.
Proof using Hn Hpow.
  intros Hwf Hm Hcap. unfold Dense.Grow.
  pose proof (target_le_len s m Hm Hcap) as Ht.
  set (t := Z.shiftr (int_add a m (Dense.mask n)) n) in *.
  destruct (Z.ltb_spec 0 (int_sub a t (len s))) as [H1|H1]; [|done].
  destruct (Z.leb_spec (int_sub a t (len s)) t) as [H2|H2]; [|done].
  exfalso. pose proof (len_nonneg s). unfold wf_slice in Hwf.
  unfold int_sub in *. rewrite to_int_id in H1; [lia|].
  unfold is_int, minInt, maxInt in *. lia.
Qed.

(** [Grow] beyond the capacity appends the missing zeros, when the
    rounding does not overflow. *)
Lemma dense_grow_extends (s : list Z) (m : Z) :
  wf_slice a s → len s * P < m → m + Dense.mask n <= maxInt a →
  let t := (m + P - 1) / P in
  Dense.Grow a n s m = Ok (s ++ replicate (Z.to_nat (t - len s)) 0)
  ∧ len s < t ∧ (t - 1) * P < m <= t * P.
Proof using Hn Hpow.
  intros Hwf Hcap Hhi t. pose proof P_pos. pose proof (len_nonneg s).
  assert (minInt a <= m) as Hlo by (unfold minInt; lia).
  assert (len s < t) as Hlt.
  { enough (len s + 1 <= t) by lia. apply Z.div_le_lower_bound; nia. }
  assert (t <= maxInt a) as Htm.
  { unfold Dense.mask in Hhi. fold P in Hhi.
    apply Z.lt_succ_r, Z.div_lt_upper_bound; nia. }
  assert ((t - 1) * P < m <= t * P) as Hround.
  { subst t. Z.div_mod_to_equations. nia. }
  split; [|done].
  unfold Dense.Grow. rewrite target_exact by done. fold t.
  unfold int_sub.
  rewrite to_int_id by (unfold is_int, minInt; lia).
  destruct (Z.ltb_spec 0 (t - len s)); [|lia].
  destruct (Z.leb_spec (t - len s) t); [|lia]. simpl.
  unfold make.
  destruct (Z.ltb_spec (t - len s) 0); [lia|].
  destruct (Z.ltb_spec (maxInt a) (t - len s)); [lia|]. simpl.
  unfold append. rewrite len_replicate by lia.
  destruct (Z.leb_spec (len s + (t - len s)) (maxInt a)); [done|lia].
Qed.

(** [Grow] of a size whose rounding overflows changes nothing. *)
Lemma dense_grow_overflow (s : list Z) (m : Z) :
  m <= maxInt a → maxInt a < m + Dense.mask n →
  Dense.Grow a n s m = Ok s.
Proof using Hn Hpow.
  intros Hm Hov. unfold Dense.Grow.
  pose proof (target_overflow m Hm Hov) as Ht.
  set (t := Z.shiftr (int_add a m (Dense.mask n)) n) in *.
  destruct (Z.ltb_spec 0 (int_sub a t (len s))) as [H1|H1]; [|done].
  destruct (Z.leb_spec (int_sub a t (len s)) t) as [H2|H2]; [lia|done].
Qed.

(** A new set is a slice of zeros, long enough for every index below
    the requested size. *)
Lemma dense_new_zeros (m : Z) (s : list Z) :
  is_int a m → Dense.New a n m = Ok s →
  ∃ c : nat, s = replicate c 0 ∧ m <= Z.of_nat c * P.
Proof using Hn Hpow.
  intros [Hlo Hhi] Hnew. pose proof P_pos.
  unfold Dense.New, make in Hnew.
  destruct (Z.le_gt_cases (m + Dense.mask n) (maxInt a)) as [Hov|Hov].
  - rewrite target_exact in Hnew by done.
    set (t := (m + P - 1) / P) in *.
    destruct (Z.ltb_spec t 0); [discriminate|].
    destruct (Z.ltb_spec (maxInt a) t); [discriminate|].
    simpl in Hnew. injection Hnew as <-.
    exists (Z.to_nat t). split; [done|].
    rewrite Z2Nat.id by done. subst t. Z.div_mod_to_equations. nia.
  - pose proof (target_overflow m Hhi Hov) as Ht.
    destruct (Z.ltb_spec (Z.shiftr (int_add a m (Dense.mask n)) n) 0);
      [discriminate|lia].
Qed.

Lemma dense_new_ok (m : Z) :
  0 <= m → m + Dense.mask n <= maxInt a →
  Dense.New a n m = Ok (replicate (Z.to_nat ((m + P - 1) / P)) 0).
Proof using Hn Hpow.
  intros Hlo Hhi. pose proof P_pos. unfold Dense.New, make.
  rewrite target_exact by (unfold minInt; lia).
  set (t := (m + P - 1) / P).
  assert (0 <= t) by (apply Z.div_pos; lia).
  assert (t <= maxInt a).
  { unfold Dense.mask in Hhi. fold P in Hhi.
    apply Z.lt_succ_r, Z.div_lt_upper_bound; nia. }
  destruct (Z.ltb_spec t 0); [lia|].
  destruct (Z.ltb_spec (maxInt a) t); [lia|done].
Qed.

(** In the [uint]-indexed form, [Grow] to a length below the current
    one panics: the subtraction wraps around to a length [make]
    rejects. *)
Lemma dense_ugrow_panics (s : list Z) (m : Z) :
  wf_slice a s →
  Z.shiftr (uint_add a m (Dense.mask n)) n < len s →
  Dense.UGrow a n s m = Panic.
Proof using Hn.
  intros Hwf Hlt. unfold Dense.UGrow.
  set (t := Z.shiftr (uint_add a m (Dense.mask n)) n) in *.
  assert (0 <= t) as Ht.
  { subst t. apply Z.shiftr_nonneg. unfold uint_add.
    apply to_uint_is_uint. }
  pose proof (len_nonneg s). pose proof (maxInt_lt_pow a).
  unfold wf_slice in Hwf.
  unfold uint_sub. rewrite (to_uint_nonneg_int a (len s)) by lia.
  rewrite to_uint_wrap_lo by lia.
  destruct (Z.eqb_spec (t - len s + 2 ^ intBits a) 0); [lia|]. simpl.
  unfold make.
  destruct (Z.ltb_spec (maxInt a) (t - len s + 2 ^ intBits a)); [|lia].
  by rewrite orb_true_r.
Qed.
End GrowLaws.

(** ** [Sparse]: the word read back after each method *)

Arguments Sparse.bit : simpl never.
Arguments Sparse.key : simpl never.

Section SparseLaws.
Context (a : Arch).

Let n := wordShift a.

Lemma wordShift_nonneg : 0 <= wordShift a.
Proof. destruct a; cbv; congruence. Qed.

Lemma wordShift_fits : 2 ^ wordShift a <= uintptrBits a.
Proof. destruct a; cbv; congruence. Qed.

Lemma wordShift_small : 2 ^ wordShift a <= maxInt a.
Proof. destruct a; cbv; congruence. Qed.

(** The offset of bit [i] in its word. *)
Lemma Sparse_bit_pow (i : Z) :
  Sparse.bit a i = 2 ^ (to_uint a i mod 2 ^ n).
Proof.
  change (Sparse.bit a i) with (Words.bit a i).
  rewrite Words_bit_dense.
  apply bit_pow; [apply wordShift_nonneg | apply wordShift_fits].
Qed.

Lemma Sparse_key_slot (i : Z) :
  Sparse.key a i = Dense.slot n (to_uint a i).
Proof.
  unfold Sparse.key, Dense.slot. fold n. apply to_int_id.
  pose proof (to_uint_is_uint a i) as Hu.
  subst n. rewrite Z.shiftr_div_pow2 by apply wordShift_nonneg.
  revert Hu. generalize (to_uint a i). intros u Hu.
  rewrite wordShift_eq. arch_lia a.
Qed.

Lemma Sparse_Get_read (s : gmap Z Z) (i : Z) :
  Sparse.Get a s i
  = Z.testbit (Sparse.read s (Sparse.key a i)) (to_uint a i mod 2 ^ n).
Proof.
  unfold Sparse.Get. rewrite Sparse_bit_pow. apply test_pow2.
  apply off_range, wordShift_nonneg.
Qed.

Lemma read_Set (s : gmap Z Z) (i k : Z) :
  Sparse.read (Sparse.Set_ a s i) k
  = if decide (Sparse.key a i = k)
    then Z.lor (Sparse.read s k) (Sparse.bit a i)
    else Sparse.read s k.
Proof.
  unfold Sparse.read, Sparse.Set_. rewrite lookup_insert.
  case_decide; by subst.
Qed.

Lemma read_Unset (s : gmap Z Z) (i k : Z) :
  Sparse.read (Sparse.Unset a s i) k
  = if decide (Sparse.key a i = k)
    then Z.ldiff (Sparse.read s k) (Sparse.bit a i)
    else Sparse.read s k.
Proof.
  unfold Sparse.read, Sparse.Unset. cbv zeta.
  destruct (s !! Sparse.key a i) as [x|] eqn:E.
  - destruct (Z.eqb_spec (Z.ldiff x (Sparse.bit a i)) 0) as [Hz|Hz].
    + rewrite lookup_delete. case_decide; [|done].
      subst k. rewrite E. simpl. by rewrite Hz.
    + rewrite lookup_insert. case_decide; [|done].
      subst k. by rewrite E.
  - case_decide; [|done]. subst k. rewrite E. simpl.
    by rewrite ?Z.ldiff_0_l.
Qed.

Lemma Sparse_bit_nonzero (x : Z) (i : Z) : Z.lor x (Sparse.bit a i) ≠ 0.
Proof.
  rewrite Sparse_bit_pow. intros H.
  pose proof (off_range n wordShift_nonneg (to_uint a i)) as Ho.
  assert (Z.testbit (Z.lor x (2 ^ (to_uint a i mod 2 ^ n)))
            (to_uint a i mod 2 ^ n) = true) as Hb.
  { rewrite testbit_lor_pow2, Z.eqb_refl by lia. apply orb_true_r. }
  rewrite H, Z.bits_0 in Hb. discriminate.
Qed.

Lemma compact_values (s : gmap Z Z) :
  Sparse.compact s ↔ ∀ k v, s !! k = Some v → v ≠ 0.
Proof.
  unfold Sparse.compact, Sparse.read. split.
  - intros H k v E. specialize (H k). rewrite E in H. simpl in H.
    apply H. eauto.
  - intros H k. destruct (s !! k) as [v|] eqn:E; simpl.
    + split; [intros _; eauto | eauto].
    + split; [intros [? [=]] | done].
Qed.

Lemma compact_empty : Sparse.compact (∅ : gmap Z Z).
Proof. apply compact_values. intros k v. by rewrite lookup_empty. Qed.

Lemma compact_Set (s : gmap Z Z) (i : Z) :
  Sparse.compact s → Sparse.compact (Sparse.Set_ a s i).
Proof.
  rewrite !compact_values. intros H k v. unfold Sparse.Set_.
  rewrite lookup_insert. case_decide.
  - intros [= <-]. apply Sparse_bit_nonzero.
  - apply H.
Qed.

Lemma compact_Unset (s : gmap Z Z) (i : Z) :
  Sparse.compact s → Sparse.compact (Sparse.Unset a s i).
Proof.
  rewrite !compact_values. intros H k v. unfold Sparse.Unset. cbv zeta.
  destruct (s !! Sparse.key a i) as [x|] eqn:E; [|apply H].
  destruct (Z.eqb_spec (Z.ldiff x (Sparse.bit a i)) 0) as [Hz|Hz].
  - rewrite lookup_delete. case_decide; [done|apply H].
  - rewrite lookup_insert. case_decide; [by intros [= <-]|apply H].
Qed.

Lemma Sparse_Set_Get (s : gmap Z Z) (i : Z) :
  Sparse.Get a (Sparse.Set_ a s i) i = true.
Proof.
  rewrite Sparse_Get_read, read_Set, decide_True by done.
  rewrite Sparse_bit_pow.
  pose proof (off_range n wordShift_nonneg (to_uint a i)) as Ho.
  rewrite testbit_lor_pow2, Z.eqb_refl by lia. apply orb_true_r.
Qed.

Lemma Sparse_Unset_Get (s : gmap Z Z) (i : Z) :
  Sparse.Get a (Sparse.Unset a s i) i = false.
Proof.
  rewrite Sparse_Get_read, read_Unset, decide_True by done.
  rewrite Sparse_bit_pow.
  pose proof (off_range n wordShift_nonneg (to_uint a i)) as Ho.
  rewrite testbit_ldiff_pow2, Z.eqb_refl by lia. apply andb_false_r.
Qed.

Lemma Sparse_key_off_inj (i j : Z) :
  is_int a i → is_int a j → i ≠ j →
  Sparse.key a i = Sparse.key a j →
  to_uint a i mod 2 ^ n ≠ to_uint a j mod 2 ^ n.
Proof.
  intros Hi Hj Hne Hk Ho. apply Hne, (to_uint_inj a); [done..|].
  rewrite !Sparse_key_slot in Hk.
  by apply (slot_off_inj n wordShift_nonneg).
Qed.

Lemma Sparse_Set_other (s : gmap Z Z) (i j : Z) :
  is_int a i → is_int a j → i ≠ j →
  Sparse.Get a (Sparse.Set_ a s i) j = Sparse.Get a s j.
Proof.
  intros Hi Hj Hne. rewrite !Sparse_Get_read, read_Set.
  case_decide as Hk; [|done].
  pose proof (Sparse_key_off_inj i j Hi Hj Hne Hk) as Ho.
  pose proof (off_range n wordShift_nonneg (to_uint a i)).
  pose proof (off_range n wordShift_nonneg (to_uint a j)).
  rewrite Sparse_bit_pow, testbit_lor_pow2 by lia.
  destruct (Z.eqb_spec (to_uint a i mod 2 ^ n) (to_uint a j mod 2 ^ n));
    [done|apply orb_false_r].
Qed.

Lemma Sparse_Unset_other (s : gmap Z Z) (i j : Z) :
  is_int a i → is_int a j → i ≠ j →
  Sparse.Get a (Sparse.Unset a s i) j = Sparse.Get a s j.
Proof.
  intros Hi Hj Hne. rewrite !Sparse_Get_read, read_Unset.
  case_decide as Hk; [|done].
  pose proof (Sparse_key_off_inj i j Hi Hj Hne Hk) as Ho.
  pose proof (off_range n wordShift_nonneg (to_uint a i)).
  pose proof (off_range n wordShift_nonneg (to_uint a j)).
  rewrite Sparse_bit_pow, testbit_ldiff_pow2 by lia.
  destruct (Z.eqb_spec (to_uint a i mod 2 ^ n) (to_uint a j mod 2 ^ n));
    [done|apply andb_true_r].
Qed.

Lemma Sparse_Set_idem (s : gmap Z Z) (i : Z) :
  Sparse.Set_ a (Sparse.Set_ a s i) i = Sparse.Set_ a s i.
Proof.
  unfold Sparse.Set_ at 1. rewrite read_Set, decide_True by done.
  rewrite lor_pow2_idem. unfold Sparse.Set_.
  apply insert_insert_eq.
Qed.

Lemma Sparse_Unset_idem (s : gmap Z Z) (i : Z) :
  Sparse.Unset a (Sparse.Unset a s i) i = Sparse.Unset a s i.
Proof.
  unfold Sparse.Unset. cbv zeta.
  destruct (s !! Sparse.key a i) as [x|] eqn:E.
  - destruct (Z.eqb_spec (Z.ldiff x (Sparse.bit a i)) 0) as [Hz|Hz].
    + by rewrite lookup_delete_eq.
    + rewrite lookup_insert_eq, ldiff_idem.
      destruct (Z.eqb_spec (Z.ldiff x (Sparse.bit a i)) 0); [done|].
      apply insert_insert_eq.
  - by rewrite E.
Qed.
End SparseLaws.

(** ** The dense bitsets as instances *)

Lemma byteShift_fits : 2 ^ byteShift <= 8.
Proof. cbv. congruence. Qed.

Lemma byteShift_nonneg : 0 <= byteShift.
Proof. cbv. congruence. Qed.

Lemma byteShift_small (a : Arch) : 2 ^ byteShift <= maxInt a.
Proof. destruct a; cbv; congruence. Qed.

Lemma to_uint_nonneg (a : Arch) (i : Z) : 0 <= to_uint a i.
Proof. apply to_uint_is_uint. Qed.

Lemma to_uint_neq (a : Arch) (i j : Z) :
  is_int a i → is_int a j → i ≠ j → to_uint a i ≠ to_uint a j.
Proof. intros Hi Hj Hne H. by apply Hne, (to_uint_inj a). Qed.

Create HintDb bitset.
#[local] Hint Resolve wordShift_nonneg wordShift_fits wordShift_small
  byteShift_nonneg byteShift_fits byteShift_small to_uint_nonneg
  to_uint_neq : bitset.

(** Rewrites the methods of [Words] and [Bytes] into the shared
    algorithm. *)
Ltac to_dense :=
  unfold Words.SetBool, Bytes.SetBool, Words.word, Bytes.byte in *;
  rewrite ?Words_Get_dense, ?Words_Set_dense, ?Words_Unset_dense,
    ?Words_New_dense, ?Words_Grow_dense, ?Bytes_Get_dense, ?Bytes_Set_dense,
    ?Bytes_Unset_dense, ?Bytes_New_dense, ?Bytes_Grow_dense in *;
  repeat match goal with
         | H : context [Z.shiftr (to_uint ?a ?i) ?n] |- _ =>
             change (Z.shiftr (to_uint a i) n)
               with (Dense.slot n (to_uint a i)) in H
         | |- context [Z.shiftr (to_uint ?a ?i) ?n] =>
             change (Z.shiftr (to_uint a i) n)
               with (Dense.slot n (to_uint a i))
         end.

(** ** Claims *)

(** C4: on [Words] and on [Bytes], a call of [Get], [Set], [Unset] or
    [SetBool] whose word or byte index is not below the length of the
    slice panics: [Get] returns no value, and no method grows the slice or
    wraps the index into range. *)
Theorem C4_dense_out_of_range_panics (a : Arch) (s : list Z) (i : Z) (b : bool) :
  (len s <= Words.word a i →
     Words.Get a s i = Panic ∧ Words.Set_ a s i = Panic
     ∧ Words.Unset a s i = Panic ∧ Words.SetBool a s i b = Panic)
  ∧ (len s <= Bytes.byte a i →
     Bytes.Get a s i = Panic ∧ Bytes.Set_ a s i = Panic
     ∧ Bytes.Unset a s i = Panic ∧ Bytes.SetBool a s i b = Panic).
Proof.
  split; intros Hge; to_dense.
  - destruct (dense_out_of_range (wordShift a) (uintptrBits a) s
                (to_uint a i) Hge) as (HG & HS & HU).
    rewrite HG, HS, HU. by destruct b.
  - destruct (dense_out_of_range byteShift 8 s (to_uint a i) Hge)
      as (HG & HS & HU).
    rewrite HG, HS, HU. by destruct b.
Qed.

Lemma C4_dense_out_of_range_panics_witness :
  Words.Get Arch64 [0] 64 = Panic ∧ Words.Get Arch64 [0] (-1) = Panic
  ∧ Bytes.Set_ Arch32 [0; 0] 16 = Panic ∧ Bytes.Get Arch32 [0; 0] (-1) = Panic.
Proof.
  split; [|split; [|split]].
  - apply (C4_dense_out_of_range_panics Arch64 [0] 64 true). vm_compute.
    congruence.
  - apply (C4_dense_out_of_range_panics Arch64 [0] (-1) true). vm_compute.
    congruence.
  - apply (C4_dense_out_of_range_panics Arch32 [0; 0] 16 true). vm_compute.
    congruence.
  - apply (C4_dense_out_of_range_panics Arch32 [0; 0] (-1) true). vm_compute.
    congruence.
Defined.

(** C5: on every bitset and for every index the set can address, [Get]
    answers true after [Set] of the same index, and false after a
    following [Unset]. *)
Theorem C5_set_get_roundtrip (a : Arch) (i : Z) (w s : list Z) (m : gmap Z Z) :
  (Words.word a i < len w →
     ∃ w1 w2, Words.Set_ a w i = Ok w1 ∧ Words.Get a w1 i = Ok true
              ∧ Words.Unset a w1 i = Ok w2 ∧ Words.Get a w2 i = Ok false)
  ∧ (Bytes.byte a i < len s →
     ∃ s1 s2, Bytes.Set_ a s i = Ok s1 ∧ Bytes.Get a s1 i = Ok true
              ∧ Bytes.Unset a s1 i = Ok s2 ∧ Bytes.Get a s2 i = Ok false)
  ∧ Sparse.Get a (Sparse.Set_ a m i) i = true
  ∧ Sparse.Get a (Sparse.Unset a (Sparse.Set_ a m i) i) i = false.
Proof.
  pose proof (to_uint_nonneg a i) as Hu.
  split; [|split; [|split]].
  - intros Hlt. to_dense.
    destruct (dense_set_get (wordShift a) (uintptrBits a)
                (wordShift_nonneg a) (wordShift_fits a) w _ Hu Hlt)
      as (w1 & HS & Hl & HG).
    rewrite <- Hl in Hlt.
    destruct (dense_unset_get (wordShift a) (uintptrBits a)
                (wordShift_nonneg a) (wordShift_fits a) w1 _ Hu Hlt)
      as (w2 & HU & _ & HG2).
    exists w1, w2. to_dense. auto.
  - intros Hlt. to_dense.
    destruct (dense_set_get byteShift 8 byteShift_nonneg byteShift_fits
                s _ Hu Hlt) as (s1 & HS & Hl & HG).
    rewrite <- Hl in Hlt.
    destruct (dense_unset_get byteShift 8 byteShift_nonneg byteShift_fits
                s1 _ Hu Hlt) as (s2 & HU & _ & HG2).
    exists s1, s2. to_dense. auto.
  - apply Sparse_Set_Get.
  - apply Sparse_Unset_Get.
Qed.

Lemma C5_set_get_roundtrip_witness :
  ∃ w1 w2, Words.Set_ Arch64 [0; 0] 70 = Ok w1
           ∧ Words.Get Arch64 w1 70 = Ok true
           ∧ Words.Unset Arch64 w1 70 = Ok w2
           ∧ Words.Get Arch64 w2 70 = Ok false.
Proof.
  apply (C5_set_get_roundtrip Arch64 70 [0; 0] [] ∅). vm_compute.
  reflexivity.
Defined.

(** The frame property of the shared algorithm, with the value read. *)
Lemma dense_frame (n eb : Z) (s : list Z) (u v : Z) :
  0 <= n → 2 ^ n <= eb →
  0 <= u → 0 <= v → u ≠ v →
  Dense.slot n u < len s → Dense.slot n v < len s →
  ∃ s1 s2 b,
    Dense.Set_ n eb s u = Ok s1 ∧ Dense.Unset n eb s u = Ok s2
    ∧ Dense.Get n eb s v = Ok b
    ∧ Dense.Get n eb s1 v = Ok b ∧ Dense.Get n eb s2 v = Ok b.
Proof.
  intros Hn Heb Hu Hv Hne Hlt Hlt'.
  destruct (dense_set_other n eb Hn Heb s u v Hu Hv Hne Hlt)
    as (s1 & HS & HG1).
  destruct (dense_unset_other n eb Hn Heb s u v Hu Hv Hne Hlt)
    as (s2 & HU & HG2).
  pose proof (slot_nonneg n Hn v Hv) as H0.
  destruct (index_lt s (Dense.slot n v)) as [x Hx]; [lia|].
  pose proof (Get_read n eb Hn Heb s v x Hx) as HG.
  exists s1, s2, (Z.testbit x (v mod 2 ^ n)).
  rewrite HG1, HG2. auto.
Qed.

(** C6: on every bitset, for two distinct indexes [i] and [j] the set can
    address, neither [Set] of [i] nor [Unset] of [i] changes what [Get]
    answers for [j]. *)
Theorem C6_independence (a : Arch) (i j : Z) (w s : list Z) (m : gmap Z Z) :
  is_int a i → is_int a j → i ≠ j →
  (Words.word a i < len w → Words.word a j < len w →
     ∃ w1 w2 b, Words.Set_ a w i = Ok w1 ∧ Words.Unset a w i = Ok w2
                ∧ Words.Get a w j = Ok b
                ∧ Words.Get a w1 j = Ok b ∧ Words.Get a w2 j = Ok b)
  ∧ (Bytes.byte a i < len s → Bytes.byte a j < len s →
     ∃ s1 s2 b, Bytes.Set_ a s i = Ok s1 ∧ Bytes.Unset a s i = Ok s2
                ∧ Bytes.Get a s j = Ok b
                ∧ Bytes.Get a s1 j = Ok b ∧ Bytes.Get a s2 j = Ok b)
  ∧ Sparse.Get a (Sparse.Set_ a m i) j = Sparse.Get a m j
  ∧ Sparse.Get a (Sparse.Unset a m i) j = Sparse.Get a m j.
Proof.
  intros Hi Hj Hne.
  split; [|split; [|split]].
  - intros Hlt Hlt'. to_dense.
    destruct (dense_frame (wordShift a) (uintptrBits a) w
                (to_uint a i) (to_uint a j))
      as (w1 & w2 & b & H); auto with bitset.
    exists w1, w2, b. by to_dense.
  - intros Hlt Hlt'. to_dense.
    destruct (dense_frame byteShift 8 s (to_uint a i) (to_uint a j))
      as (s1 & s2 & b & H); auto with bitset.
    exists s1, s2, b. by to_dense.
  - by apply Sparse_Set_other.
  - by apply Sparse_Unset_other.
Qed.

Lemma C6_independence_witness :
  ∃ w1 w2 b, Words.Set_ Arch64 [5; 0] 1 = Ok w1
             ∧ Words.Unset Arch64 [5; 0] 1 = Ok w2
             ∧ Words.Get Arch64 [5; 0] 2 = Ok b
             ∧ Words.Get Arch64 w1 2 = Ok b ∧ Words.Get Arch64 w2 2 = Ok b.
Proof.
  apply (C6_independence Arch64 1 2 [5; 0] [] ∅);
    vm_compute; try split; congruence.
Defined.

(** C10: on every bitset, [Set] and [Unset] are idempotent: for an index
    the set can address, a second [Set] leaves the state the first one
    left, and so does a second [Unset]. *)
Theorem C10_set_unset_idempotent (a : Arch) (i : Z) (w s : list Z)
    (m : gmap Z Z) :
  (Words.word a i < len w →
     (∃ w1, Words.Set_ a w i = Ok w1 ∧ Words.Set_ a w1 i = Ok w1)
     ∧ (∃ w1, Words.Unset a w i = Ok w1 ∧ Words.Unset a w1 i = Ok w1))
  ∧ (Bytes.byte a i < len s →
     (∃ s1, Bytes.Set_ a s i = Ok s1 ∧ Bytes.Set_ a s1 i = Ok s1)
     ∧ (∃ s1, Bytes.Unset a s i = Ok s1 ∧ Bytes.Unset a s1 i = Ok s1))
  ∧ Sparse.Set_ a (Sparse.Set_ a m i) i = Sparse.Set_ a m i
  ∧ Sparse.Unset a (Sparse.Unset a m i) i = Sparse.Unset a m i.
Proof.
  pose proof (to_uint_nonneg a i) as Hu.
  split; [|split; [|split]].
  - intros Hlt. to_dense. split.
    + destruct (dense_set_idem (wordShift a) (uintptrBits a)
                  (wordShift_nonneg a) (wordShift_fits a) w _ Hu Hlt)
        as (w1 & H1 & H2).
      exists w1. by to_dense.
    + destruct (dense_unset_idem (wordShift a) (uintptrBits a)
                  (wordShift_nonneg a) (wordShift_fits a) w _ Hu Hlt)
        as (w1 & H1 & H2).
      exists w1. by to_dense.
  - intros Hlt. to_dense. split.
    + destruct (dense_set_idem byteShift 8 byteShift_nonneg byteShift_fits
                  s _ Hu Hlt) as (s1 & H1 & H2).
      exists s1. by to_dense.
    + destruct (dense_unset_idem byteShift 8 byteShift_nonneg byteShift_fits
                  s _ Hu Hlt) as (s1 & H1 & H2).
      exists s1. by to_dense.
  - apply Sparse_Set_idem.
  - apply Sparse_Unset_idem.
Qed.

Lemma C10_set_unset_idempotent_witness :
  (∃ s1, Bytes.Set_ Arch64 [0; 6] 9 = Ok s1 ∧ Bytes.Set_ Arch64 s1 9 = Ok s1)
  ∧ (∃ s1, Bytes.Unset Arch64 [0; 6] 9 = Ok s1
           ∧ Bytes.Unset Arch64 s1 9 = Ok s1).
Proof.
  apply (C10_set_unset_idempotent Arch64 9 [] [0; 6] ∅). vm_compute.
  reflexivity.
Defined.

(** C3: on a [Sparse], a key is in the map exactly when its word is not
    zero: this holds of the empty map and every call of [Get], [Set],
    [Unset] and [SetBool] keeps it.  [Get] leaves the map as it is;
    [Unset] on a word that is not in the map leaves the map as it is; and
    [Unset] that clears the last set bit of a word deletes the word's
    key. *)
Theorem C3_sparse_compact (a : Arch) (s : gmap Z Z) (c : Sparse.call) (i : Z) :
  Sparse.compact s →
  Sparse.compact (∅ : gmap Z Z)
  ∧ Sparse.compact (Sparse.exec a c s).1
  ∧ (Sparse.exec a (Sparse.CGet i) s).1 = s
  ∧ (s !! Sparse.key a i = None → Sparse.Unset a s i = s)
  ∧ (∀ x, s !! Sparse.key a i = Some x → Z.ldiff x (Sparse.bit a i) = 0 →
       Sparse.Unset a s i = delete (Sparse.key a i) s
       ∧ Sparse.Unset a s i !! Sparse.key a i = None).
Proof.
  intros Hc. split; [apply compact_empty|]. split; [|split; [done|split]].
  - destruct c as [k|k|k|k [|]]; simpl; auto using compact_Set, compact_Unset.
  - intros E. unfold Sparse.Unset. cbv zeta. by rewrite E.
  - intros x E Hz. unfold Sparse.Unset. cbv zeta. rewrite E.
    destruct (Z.eqb_spec (Z.ldiff x (Sparse.bit a i)) 0); [|done].
    split; [done|]. apply lookup_delete_eq.
Qed.

Lemma C3_sparse_compact_witness :
  Sparse.compact (Sparse.exec Arch64 (Sparse.CUnset 3)
                    (Sparse.Set_ Arch64 ∅ 3)).1.
Proof.
  apply (C3_sparse_compact Arch64 (Sparse.Set_ Arch64 ∅ 3)
           (Sparse.CUnset 3) 3).
  intros k. unfold Sparse.read, Sparse.Set_. rewrite lookup_insert.
  case_decide.
  - split; [intros _; vm_compute; congruence | eauto].
  - rewrite lookup_empty. split; [intros [? [=]] | done].
Defined.

(** ** Fresh sets *)

Lemma bind_Ok {A B : Type} (x : A) (f : A → result B) : (Ok x ≫= f) = f x.
Proof. reflexivity. Qed.

Lemma mask_wordShift (a : Arch) : Dense.mask (wordShift a) = wordModMask a.
Proof. destruct a; reflexivity. Qed.

Lemma wordModMask_ge (a : Arch) : 7 <= wordModMask a.
Proof. destruct a; cbv; congruence. Qed.

Lemma small_is_int (a : Arch) (j : Z) : 0 <= j <= 63 → is_int a j.
Proof. intros H. arch_lia a. Qed.

(** A new dense set answers false below the size asked for. *)
Lemma dense_new_get (a : Arch) (n eb m : Z) (s : list Z) (u : Z) :
  0 <= n → 2 ^ n <= eb → 2 ^ n <= maxInt a →
  is_int a m → Dense.New a n m = Ok s → 0 <= u < m →
  Dense.Get n eb s u = Ok false ∧ Dense.slot n u < len s.
Proof.
  intros Hn Heb Hpow Hm Hnew [Hu Hlt].
  destruct (dense_new_zeros a n Hn Hpow m s Hm Hnew) as (c & -> & Hc).
  assert (Dense.slot n u < Z.of_nat c) as Hs.
  { rewrite slot_div by done. pose proof (pow_n_pos n Hn).
    apply Z.div_lt_upper_bound; lia. }
  split; [by apply dense_get_zeros|].
  unfold len. by rewrite length_replicate.
Qed.

(** C7: a new [Words] or [Bytes] of [n] bits answers false to [Get] of
    every index below [n], and so does an empty [Sparse] for every
    index. *)
Theorem C7_fresh_sets_read_false (a : Arch) (n i : Z) :
  is_int a n → 0 <= i < n →
  (∀ w, Words.NewWords a n = Ok w → Words.Get a w i = Ok false)
  ∧ (∀ s, Bytes.NewBytes a n = Ok s → Bytes.Get a s i = Ok false)
  ∧ (∀ j, Sparse.Get a (∅ : gmap Z Z) j = false).
Proof.
  intros Hn Hi.
  assert (to_uint a i = i) as Hu
    by (apply to_uint_nonneg_int; unfold is_int in Hn; lia).
  split; [|split].
  - intros w Hnew. to_dense. rewrite Hu.
    eapply dense_new_get; eauto with bitset.
  - intros s Hnew. to_dense. rewrite Hu.
    eapply dense_new_get; eauto with bitset.
  - intros j. unfold Sparse.Get, Sparse.read. rewrite lookup_empty.
    cbn [default]. by rewrite Z.land_0_l.
Qed.

Lemma C7_fresh_sets_read_false_witness :
  Words.Get Arch64 [0; 0] 99 = Ok false
  ∧ Bytes.Get Arch32 [0; 0; 0] 17 = Ok false.
Proof.
  split.
  - destruct (C7_fresh_sets_read_false Arch64 100 99) as (H1 & _ & _).
    + vm_compute. split; congruence.
    + lia.
    + apply H1. reflexivity.
  - destruct (C7_fresh_sets_read_false Arch32 18 17) as (_ & H2 & _).
    + vm_compute. split; congruence.
    + lia.
    + apply H2. reflexivity.
Defined.

(** C8: a [Bytes] keeps bit [i] in byte [i/8] at offset [i%8], least
    significant bit first, with the mask [1 << (i & 7)]; a [Bytes] of 8
    bits after [Set(0)] and [Set(7)] is the single byte 129. *)
Theorem C8_bytes_layout (a : Arch) (s : list Z) (i x : Z) :
  0 <= i <= maxInt a → index s (i / 8) = Ok x →
  Bytes.byte a i = i / 8
  ∧ Bytes.bit a i = 2 ^ (i mod 8)
  ∧ Bytes.Get a s i = Ok (Z.testbit x (i mod 8))
  ∧ Bytes.Set_ a s i = Ok (<[Z.to_nat (i / 8) := Z.lor x (2 ^ (i mod 8))]> s)
  ∧ (s0 ← Bytes.NewBytes a 8;
     s1 ← Bytes.Set_ a s0 0;
     Bytes.Set_ a s1 7) = Ok [129].
Proof.
  intros Hi Hx.
  assert (to_uint a i = i) as Hu by (by apply to_uint_nonneg_int).
  assert (Dense.slot byteShift i = i / 8) as Hs
    by (by rewrite slot_div by apply byteShift_nonneg).
  split; [|split; [|split; [|split]]].
  - unfold Bytes.byte. rewrite Hu. exact Hs.
  - change (Bytes.bit a i) with (Dense.bit byteShift 8 (to_uint a i)).
    rewrite Hu. apply bit_pow; auto with bitset.
  - to_dense. rewrite Hu. rewrite <- Hs in Hx.
    apply (Get_read byteShift 8 byteShift_nonneg byteShift_fits s i x Hx).
  - to_dense. rewrite Hu. rewrite <- Hs in Hx |- *.
    apply (Set_write byteShift 8 byteShift_nonneg byteShift_fits s i x);
      [lia|done].
  - destruct a; vm_compute; reflexivity.
Qed.

Lemma C8_bytes_layout_witness :
  Bytes.Set_ Arch64 [0; 4] 9 = Ok [0; 6]
  ∧ Bytes.Get Arch64 [0; 4] 10 = Ok true.
Proof.
  split.
  - apply (C8_bytes_layout Arch64 [0; 4] 9 4); vm_compute;
      [split; congruence | reflexivity].
  - apply (C8_bytes_layout Arch64 [0; 4] 10 4); vm_compute;
      [split; congruence | reflexivity].
Defined.

(** ** The four-call scenario *)

(** What [Get] answers after [Set] and after [Unset], for every index. *)
Lemma dense_set_reads (n eb : Z) (s : list Z) (u : Z) :
  0 <= n → 2 ^ n <= eb → 0 <= u → Dense.slot n u < len s →
  ∃ s1, Dense.Set_ n eb s u = Ok s1 ∧ len s1 = len s
        ∧ ∀ v, 0 <= v →
            Dense.Get n eb s1 v = if u =? v then Ok true else Dense.Get n eb s v.
Proof.
  intros Hn Heb Hu Hlt.
  destruct (dense_set_get n eb Hn Heb s u Hu Hlt) as (s1 & HS & Hl & HG).
  exists s1. split; [done|]. split; [done|]. intros v Hv.
  destruct (Z.eqb_spec u v) as [<-|Hne]; [done|].
  destruct (dense_set_other n eb Hn Heb s u v Hu Hv Hne Hlt)
    as (s1' & HS' & HG').
  rewrite HS in HS'. by injection HS' as <-.
Qed.

Lemma dense_unset_reads (n eb : Z) (s : list Z) (u : Z) :
  0 <= n → 2 ^ n <= eb → 0 <= u → Dense.slot n u < len s →
  ∃ s1, Dense.Unset n eb s u = Ok s1 ∧ len s1 = len s
        ∧ ∀ v, 0 <= v →
            Dense.Get n eb s1 v
            = if u =? v then Ok false else Dense.Get n eb s v.
Proof.
  intros Hn Heb Hu Hlt.
  destruct (dense_unset_get n eb Hn Heb s u Hu Hlt) as (s1 & HS & Hl & HG).
  exists s1. split; [done|]. split; [done|]. intros v Hv.
  destruct (Z.eqb_spec u v) as [<-|Hne]; [done|].
  destruct (dense_unset_other n eb Hn Heb s u v Hu Hv Hne Hlt)
    as (s1' & HS' & HG').
  rewrite HS in HS'. by injection HS' as <-.
Qed.

Lemma dense_scenario (a : Arch) (n eb m : Z) (s0 : list Z) (v : Z) :
  0 <= n → 2 ^ n <= eb → 2 ^ n <= maxInt a →
  is_int a m → 63 < m → Dense.New a n m = Ok s0 → 0 <= v <= 63 →
  (s1 ← Dense.Set_ n eb s0 0;
   s2 ← Dense.Set_ n eb s1 7;
   s3 ← Dense.Unset n eb s2 0;
   s4 ← Dense.Set_ n eb s3 63;
   Dense.Get n eb s4 v) = Ok ((v =? 7) || (v =? 63)).
Proof.
  intros Hn Heb Hpow Hm Hbig Hnew Hv.
  assert (∀ u, 0 <= u <= 63 →
            Dense.Get n eb s0 u = Ok false ∧ Dense.slot n u < len s0) as Hfresh.
  { intros u Hu. eapply dense_new_get; eauto. lia. }
  destruct (Hfresh 0) as [_ L0]; [lia|].
  destruct (Hfresh 7) as [_ L7]; [lia|].
  destruct (Hfresh 63) as [_ L63]; [lia|].
  destruct (Hfresh v Hv) as [G0 _].
  destruct (dense_set_reads n eb s0 0 Hn Heb) as (s1 & -> & E1 & R1);
    [lia|done|].
  rewrite bind_Ok.
  destruct (dense_set_reads n eb s1 7 Hn Heb) as (s2 & -> & E2 & R2);
    [lia|lia|].
  rewrite bind_Ok.
  destruct (dense_unset_reads n eb s2 0 Hn Heb) as (s3 & -> & E3 & R3);
    [lia|lia|].
  rewrite bind_Ok.
  destruct (dense_set_reads n eb s3 63 Hn Heb) as (s4 & -> & E4 & R4);
    [lia|lia|].
  rewrite bind_Ok.
  rewrite R4, R3, R2, R1, G0 by lia.
  destruct (Z.eqb_spec 63 v), (Z.eqb_spec 0 v), (Z.eqb_spec 7 v),
    (Z.eqb_spec v 7), (Z.eqb_spec v 63); try lia; reflexivity.
Qed.

(** C9: [Set(0)], [Set(7)], [Unset(0)], [Set(63)] on a new [Words], a new
    [Bytes] and an empty [Sparse], each able to address index 63, leave
    the three in agreement: for every [j] from 0 to 63, [Get(j)] answers
    true when [j] is 7 or 63 and false otherwise. *)
Theorem C9_cross_implementation (a : Arch) (n j : Z) :
  is_int a n → 63 < n → 0 <= j <= 63 →
  (∀ w0, Words.NewWords a n = Ok w0 →
     (w1 ← Words.Set_ a w0 0;
      w2 ← Words.Set_ a w1 7;
      w3 ← Words.Unset a w2 0;
      w4 ← Words.Set_ a w3 63;
      Words.Get a w4 j) = Ok ((j =? 7) || (j =? 63)))
  ∧ (∀ s0, Bytes.NewBytes a n = Ok s0 →
     (s1 ← Bytes.Set_ a s0 0;
      s2 ← Bytes.Set_ a s1 7;
      s3 ← Bytes.Unset a s2 0;
      s4 ← Bytes.Set_ a s3 63;
      Bytes.Get a s4 j) = Ok ((j =? 7) || (j =? 63)))
  ∧ Sparse.Get a
      (Sparse.Set_ a
         (Sparse.Unset a (Sparse.Set_ a (Sparse.Set_ a ∅ 0) 7) 0) 63) j
    = (j =? 7) || (j =? 63).
Proof.
  intros Hn Hbig Hj.
  assert (to_uint a j = j) as Hu.
  { apply to_uint_nonneg_int. pose proof (small_is_int a 63).
    unfold is_int in *. lia. }
  split; [|split].
  - intros w0 Hnew. rewrite Words_New_dense in Hnew.
    pose proof (dense_scenario a (wordShift a) (uintptrBits a) n w0
                  (to_uint a j) (wordShift_nonneg a) (wordShift_fits a)
                  (wordShift_small a) Hn Hbig Hnew) as H.
    rewrite Hu in H at 1 2. specialize (H Hj).
    assert (Ok ((j =? 7) || (j =? 63))
            = Ok ((to_uint a j =? 7) || (to_uint a j =? 63))) as ->
      by (by rewrite Hu).
    rewrite <- H. destruct a; reflexivity.
  - intros s0 Hnew. rewrite Bytes_New_dense in Hnew.
    pose proof (dense_scenario a byteShift 8 n s0 (to_uint a j)
                  byteShift_nonneg byteShift_fits (byteShift_small a)
                  Hn Hbig Hnew) as H.
    rewrite Hu in H at 1 2. specialize (H Hj).
    assert (Ok ((j =? 7) || (j =? 63))
            = Ok ((to_uint a j =? 7) || (to_uint a j =? 63))) as ->
      by (by rewrite Hu).
    rewrite <- H. destruct a; reflexivity.
  - pose proof (small_is_int a j Hj) as Ij.
    assert (is_int a 0 ∧ is_int a 7 ∧ is_int a 63) as (I0 & I7 & I63)
      by (repeat split; apply small_is_int; lia).
    destruct (Z.eqb_spec j 63) as [->|N63].
    { by rewrite Sparse_Set_Get. }
    rewrite Sparse_Set_other by done.
    destruct (Z.eqb_spec j 0) as [->|N0].
    { by rewrite Sparse_Unset_Get. }
    rewrite Sparse_Unset_other by done.
    destruct (Z.eqb_spec j 7) as [->|N7].
    { by rewrite Sparse_Set_Get. }
    rewrite !Sparse_Set_other by done.
    unfold Sparse.Get, Sparse.read. rewrite lookup_empty.
    cbn [default]. by rewrite Z.land_0_l.
Qed.

Lemma C9_cross_implementation_witness :
  Sparse.Get Arch64
    (Sparse.Set_ Arch64
       (Sparse.Unset Arch64
          (Sparse.Set_ Arch64 (Sparse.Set_ Arch64 ∅ 0) 7) 0) 63) 7
  = true.
Proof.
  apply (C9_cross_implementation Arch64 64 7); vm_compute;
    try split; congruence.
Defined.

(** ** Growth *)

(** [Grow] beyond the capacity, when rounding the size up does not
    overflow: the zeros appended, the least length that holds the size,
    the old bits and the new bits. *)
Lemma dense_grow_reads (a : Arch) (n eb : Z) (s : list Z) (m : Z) :
  0 <= n → 2 ^ n <= eb → 2 ^ n <= maxInt a →
  wf_slice a s → len s * 2 ^ n < m → m + Dense.mask n <= maxInt a →
  ∃ c : nat,
    Dense.Grow a n s m = Ok (s ++ replicate c 0)
    ∧ (len s + Z.of_nat c - 1) * 2 ^ n < m <= (len s + Z.of_nat c) * 2 ^ n
    ∧ (∀ u, Dense.slot n u < len s →
         Dense.Get n eb (s ++ replicate c 0) u = Dense.Get n eb s u)
    ∧ (∀ u, len s * 2 ^ n <= u < m →
         Dense.Get n eb (s ++ replicate c 0) u = Ok false).
Proof.
  intros Hn Heb Hpow Hwf Hcap Hfit.
  destruct (dense_grow_extends a n Hn Hpow s m Hwf Hcap Hfit)
    as (HG & Hlt & Hround).
  set (t := (m + 2 ^ n - 1) / 2 ^ n) in *.
  exists (Z.to_nat (t - len s)).
  rewrite Z2Nat.id by lia.
  replace (len s + (t - len s)) with t by lia.
  split; [done|]. split; [done|]. split.
  - intros u Hu. by apply dense_get_app_old.
  - intros u [Hlo Hhi]. apply dense_get_app_new; [done..|].
    rewrite Z2Nat.id by lia. rewrite slot_div by done.
    pose proof (pow_n_pos n Hn). split.
    + apply Z.div_le_lower_bound; lia.
    + enough (u / 2 ^ n < t) by lia. apply Z.div_lt_upper_bound; lia.
Qed.

(** On the [int]-indexed [Words] and [Bytes], [Grow] to a size the set
    already holds returns the set as it is. *)
Lemma Words_Grow_noop (a : Arch) (w : list Z) (m : Z) :
  wf_slice a w → is_int a m → m <= Words.capacity a w →
  Words.Grow a w m = Ok w.
Proof.
  intros Hwf Hm Hcap. rewrite Words_Grow_dense.
  apply dense_grow_noop; auto with bitset.
  unfold Words.capacity in Hcap. by rewrite wordShift_pow.
Qed.

Lemma Bytes_Grow_noop (a : Arch) (s : list Z) (m : Z) :
  wf_slice a s → is_int a m → m <= Bytes.capacity s →
  Bytes.Grow a s m = Ok s.
Proof.
  intros Hwf Hm Hcap. rewrite Bytes_Grow_dense.
  apply dense_grow_noop; auto with bitset.
Qed.

(** On the [int]-indexed [Words] and [Bytes], [Grow] beyond the capacity
    appends the zeros that are missing, keeps every old bit and leaves
    every new bit below the size unset, as long as rounding the size up
    does not overflow [int]. *)
Lemma Words_Grow_extends (a : Arch) (w : list Z) (m : Z) :
  wf_slice a w → Words.capacity a w < m → m + wordModMask a <= maxInt a →
  ∃ c : nat,
    Words.Grow a w m = Ok (w ++ replicate c 0)
    ∧ (len w + Z.of_nat c - 1) * wordBits a < m
      <= (len w + Z.of_nat c) * wordBits a
    ∧ (∀ i, Words.word a i < len w →
         Words.Get a (w ++ replicate c 0) i = Words.Get a w i)
    ∧ (∀ i, Words.capacity a w <= i < m →
         Words.Get a (w ++ replicate c 0) i = Ok false).
Proof.
  intros Hwf Hcap Hfit. unfold Words.capacity in *.
  rewrite <- wordShift_pow in *. rewrite <- mask_wordShift in Hfit.
  destruct (dense_grow_reads a (wordShift a) (uintptrBits a) w m)
    as (c & HG & Hr & Hold & Hnew); auto with bitset.
  exists c. rewrite Words_Grow_dense.
  split; [done|]. split; [done|]. split.
  - intros i Hi. rewrite !Words_Get_dense. by apply Hold.
  - intros i Hi. rewrite Words_Get_dense.
    pose proof (len_nonneg w). pose proof (wordShift_nonneg a).
    assert (0 < 2 ^ wordShift a) by (apply Z.pow_pos_nonneg; lia).
    assert (0 <= Dense.mask (wordShift a))
      by (rewrite mask_wordShift; pose proof (wordModMask_ge a); lia).
    rewrite to_uint_nonneg_int by nia. by apply Hnew.
Qed.

Lemma Bytes_Grow_extends (a : Arch) (s : list Z) (m : Z) :
  wf_slice a s → Bytes.capacity s < m → m + byteModMask <= maxInt a →
  ∃ c : nat,
    Bytes.Grow a s m = Ok (s ++ replicate c 0)
    ∧ (len s + Z.of_nat c - 1) * 8 < m <= (len s + Z.of_nat c) * 8
    ∧ (∀ i, Bytes.byte a i < len s →
         Bytes.Get a (s ++ replicate c 0) i = Bytes.Get a s i)
    ∧ (∀ i, Bytes.capacity s <= i < m →
         Bytes.Get a (s ++ replicate c 0) i = Ok false).
Proof.
  intros Hwf Hcap Hfit. unfold Bytes.capacity in *.
  destruct (dense_grow_reads a byteShift 8 s m)
    as (c & HG & Hr & Hold & Hnew); auto with bitset.
  exists c. rewrite Bytes_Grow_dense.
  split; [done|]. split; [done|]. split.
  - intros i Hi. rewrite !Bytes_Get_dense. by apply Hold.
  - intros i Hi. rewrite Bytes_Get_dense.
    pose proof (len_nonneg s). unfold byteModMask in Hfit.
    rewrite to_uint_nonneg_int by lia. by apply Hnew.
Qed.

(** On the [uint]-indexed [Words] and [Bytes], [Grow] to a length below
    the current one panics. *)
Lemma UWords_Grow_shorter_panics (a : Arch) (w : list Z) (m : Z) :
  wf_slice a w →
  Z.shiftr (uint_add a m (wordModMask a)) (wordShift a) < len w →
  UintVariant.Words.Grow a w m = Panic.
Proof.
  intros Hwf Hlt. rewrite UWords_Grow_dense.
  apply dense_ugrow_panics; auto with bitset.
  by rewrite mask_wordShift.
Qed.

Lemma UBytes_Grow_shorter_panics (a : Arch) (s : list Z) (m : Z) :
  wf_slice a s →
  Z.shiftr (uint_add a m byteModMask) byteShift < len s →
  UintVariant.Bytes.Grow a s m = Panic.
Proof.
  intros Hwf Hlt. rewrite UBytes_Grow_dense.
  apply dense_ugrow_panics; auto with bitset.
Qed.

(** On the [int]-indexed [Words] and [Bytes], [Grow] of a size whose
    rounding overflows [int] returns the set as it is. *)
Lemma Words_Grow_overflow (a : Arch) (w : list Z) (m : Z) :
  m <= maxInt a → maxInt a < m + wordModMask a → Words.Grow a w m = Ok w.
Proof.
  intros Hm Hov. rewrite Words_Grow_dense.
  apply dense_grow_overflow; auto with bitset. by rewrite mask_wordShift.
Qed.

Lemma Bytes_Grow_overflow (a : Arch) (s : list Z) (m : Z) :
  m <= maxInt a → maxInt a < m + byteModMask → Bytes.Grow a s m = Ok s.
Proof.
  intros Hm Hov. rewrite Bytes_Grow_dense.
  apply dense_grow_overflow; auto with bitset.
Qed.

(** C1: [Grow] to a size the set already holds is to leave the bits and
    the length as they are.  The [int]-indexed [Grow] does (see
    [Words_Grow_noop] and [Bytes_Grow_noop]); the [uint]-indexed [Grow]
    does not: on a set of two elements, [Grow(8)] panics, on [Words] and
    on [Bytes], where the [int]-indexed [Grow] returns the set
    unchanged. *)
Theorem C1_uint_grow_within_capacity_panics (a : Arch) :
  UintVariant.Words.Grow a [0; 0] 8 = Panic
  ∧ UintVariant.Bytes.Grow a [0; 0] 8 = Panic
  ∧ Words.Grow a [0; 0] 8 = Ok [0; 0]
  ∧ Bytes.Grow a [0; 0] 8 = Ok [0; 0].
Proof. destruct a; vm_compute; auto. Qed.

(** C2: [Grow] beyond the capacity is to append the zeros that are
    missing.  It does while rounding the size up stays within [int] (see
    [Words_Grow_extends] and [Bytes_Grow_extends]); at the largest [int]
    the rounding overflows and [Grow] returns the empty set as it is, so
    that not even bit 0 can be read. *)
Theorem C2_grow_at_max_int_does_nothing (a : Arch) :
  Words.Grow a [] (maxInt a) = Ok []
  ∧ Bytes.Grow a [] (maxInt a) = Ok []
  ∧ Words.capacity a [] < maxInt a
  ∧ Words.Get a [] 0 = Panic
  ∧ Bytes.Get a [] 0 = Panic.
Proof. destruct a; vm_compute; auto. Qed.

(** * Further properties *)

(** ** Construction and growth, in full *)

Section GrowSpecs.
Context (a : Arch) (n : Z).
Hypothesis Hn : 0 <= n.
Hypothesis Hpow : 2 ^ n <= maxInt a.

Let P := 2 ^ n.

Lemma target_is_int (m : Z) :
  Z.shiftr (int_add a m (Dense.mask n)) n <= maxInt a.
Proof using Hn.
  pose proof (P_pos n Hn) as HP. fold P in HP.
  pose proof (to_int_is_int a (m + Dense.mask n)) as [Hlo Hhi].
  unfold int_add. rewrite Z.shiftr_div_pow2 by done. fold P.
  set (x := to_int a (m + Dense.mask n)) in *.
  destruct (Z.le_gt_cases 0 x).
  - enough (x / P <= x) by lia. apply Z.div_le_upper_bound; nia.
  - enough (x / P < 0) by (unfold maxInt; pose proof (intBits_pos a);
      assert (0 < 2 ^ (intBits a - 1)) by (apply Z.pow_pos_nonneg; lia); lia).
    apply Z.div_lt_upper_bound; lia.
Qed.

(** With memory for what it asks, [Grow] returns for every size, and
    what it returns is the old slice followed by zeros. *)
Lemma dense_grow_total (s : list Z) (m : Z) :
  wf_slice a s →
  ∃ c : nat, Dense.Grow a n s m = Ok (s ++ replicate c 0)
             ∧ wf_slice a (s ++ replicate c 0).
Proof using Hn.
  intros Hwf. unfold Dense.Grow.
  pose proof (target_is_int m) as Ht.
  set (t := Z.shiftr (int_add a m (Dense.mask n)) n) in *.
  pose proof (len_nonneg s). unfold wf_slice in *.
  destruct (Z.ltb_spec 0 (int_sub a t (len s))) as [H1|H1];
    [destruct (Z.leb_spec (int_sub a t (len s)) t) as [H2|H2]|].
  - assert (int_sub a t (len s) = t - len s) as E.
    { unfold int_sub. apply to_int_id.
      pose proof (to_int_is_int a (t - len s)) as [? ?].
      unfold int_sub in *. unfold is_int, minInt, maxInt in *. lia. }
    rewrite E in *. simpl. exists (Z.to_nat (t - len s)).
    unfold make.
    destruct (Z.ltb_spec (t - len s) 0); [lia|].
    destruct (Z.ltb_spec (maxInt a) (t - len s)); [lia|]. simpl.
    unfold append. rewrite len_replicate by lia.
    destruct (Z.leb_spec (len s + (t - len s)) (maxInt a)); [|lia].
    split; [done|]. rewrite len_app, len_replicate by lia. lia.
  - exists 0%nat. simpl. by rewrite app_nil_r.
  - exists 0%nat. simpl. by rewrite app_nil_r.
Qed.

(** [New] on every size of type [int], with memory for what it asks. *)
Lemma dense_new_spec (m : Z) :
  is_int a m →
  Dense.New a n m
  = if (m <=? - P) || (maxInt a - Dense.mask n <? m) then Panic
    else Ok (replicate (Z.to_nat ((m + P - 1) / P)) 0).
Proof using Hn Hpow.
  intros [Hlo Hhi]. pose proof (P_pos n Hn) as HP. fold P in HP.
  destruct (Z.ltb_spec (maxInt a - Dense.mask n) m) as [Hov|Hov].
  - rewrite orb_true_r. unfold Dense.New, make.
    pose proof (target_overflow a n Hn Hpow m Hhi) as Ht.
    destruct (Z.ltb_spec (Z.shiftr (int_add a m (Dense.mask n)) n) 0);
      [done|lia].
  - rewrite orb_false_r. unfold Dense.New, make.
    rewrite (target_exact a n Hn) by lia. fold P.
    set (t := (m + P - 1) / P).
    assert (t <= maxInt a).
    { unfold Dense.mask in Hov. fold P in Hov.
      enough (t < maxInt a + 1) by lia.
      apply Z.div_lt_upper_bound; nia. }
    destruct (Z.leb_spec m (- P)) as [Hneg|Hneg].
    + assert (t < 0) by (apply Z.div_lt_upper_bound; lia).
      destruct (Z.ltb_spec t 0); [done|lia].
    + assert (0 <= t) by (apply Z.div_pos; lia).
      destruct (Z.ltb_spec t 0); [lia|].
      destruct (Z.ltb_spec (maxInt a) t); [lia|done].
Qed.

(** [Grow] of the [uint]-indexed form on every size whose rounding does
    not overflow, with memory for what it asks. *)
Lemma dense_ugrow_spec (s : list Z) (m : Z) :
  1 <= n → wf_slice a s → 0 <= m → m + Dense.mask n < 2 ^ intBits a →
  Dense.UGrow a n s m
  = if (m + P - 1) / P <? len s then Panic
    else Ok (s ++ replicate (Z.to_nat ((m + P - 1) / P - len s)) 0).
Proof using Hn Hpow.
  intros Hn1 Hwf Hm Hfit. pose proof (P_pos n Hn) as HP. fold P in HP.
  assert (2 <= P) as HP2.
  { subst P. change 2 with (2 ^ 1) at 1. apply Z.pow_le_mono_r; lia. }
  pose proof (maxInt_lt_pow a) as HM. pose proof (len_nonneg s) as Hl.
  assert (Z.shiftr (uint_add a m (Dense.mask n)) n = (m + P - 1) / P) as Et.
  { unfold uint_add. rewrite to_uint_id, Z.shiftr_div_pow2;
      unfold is_uint, Dense.mask in *; fold P in Hfit |- *; try lia.
    f_equal. lia. }
  set (t := (m + P - 1) / P) in *.
  assert (0 <= t) by (apply Z.div_pos; lia).
  assert (t <= maxInt a).
  { unfold Dense.mask in Hfit. fold P in Hfit.
    enough (t < maxInt a + 1) by lia. apply Z.div_lt_upper_bound; nia. }
  destruct (Z.ltb_spec t (len s)) as [Hlt|Hge].
  - apply dense_ugrow_panics; [done..|]. by rewrite Et.
  - unfold Dense.UGrow. rewrite Et. unfold wf_slice in Hwf.
    unfold uint_sub. rewrite (to_uint_nonneg_int a (len s)) by lia.
    rewrite (to_uint_nonneg_int a (t - len s)) by lia.
    destruct (Z.eqb_spec (t - len s) 0) as [E0|E0]; simpl.
    + rewrite E0. simpl. by rewrite app_nil_r.
    + unfold make.
      destruct (Z.ltb_spec (t - len s) 0); [lia|].
      destruct (Z.ltb_spec (maxInt a) (t - len s)); [lia|]. simpl.
      unfold append. rewrite len_replicate by lia.
      destruct (Z.leb_spec (len s + (t - len s)) (maxInt a)); [done|lia].
Qed.
End GrowSpecs.

(** X1: on the [int]-indexed [Words] and [Bytes], [Grow] to a size within
    the capacity, a zero or negative size included, returns the set as it
    is. *)
Theorem X1_grow_within_capacity (a : Arch) (w s : list Z) (m : Z) :
  is_int a m →
  (wf_slice a w → m <= Words.capacity a w → Words.Grow a w m = Ok w)
  ∧ (wf_slice a s → m <= Bytes.capacity s → Bytes.Grow a s m = Ok s).
Proof.
  intros Hm. split; intros Hwf Hcap.
  - by apply Words_Grow_noop.
  - by apply Bytes_Grow_noop.
Qed.

Lemma X1_grow_within_capacity_witness :
  Words.Grow Arch64 [5; 0] 100 = Ok [5; 0]
  ∧ Bytes.Grow Arch32 [5; 0] (-3) = Ok [5; 0].
Proof.
  split.
  - apply (X1_grow_within_capacity Arch64 [5; 0] [] 100); vm_compute;
      try split; congruence.
  - apply (X1_grow_within_capacity Arch32 [] [5; 0] (-3)); vm_compute;
      try split; congruence.
Defined.

(** X2: on the [int]-indexed [Words] and [Bytes], when [Grow] to a size
    [m] above the capacity, with [m] plus the mask within [int], returns,
    the slice it leaves is the old one with zeros appended up to the
    least length that holds [m] bits; every bit that could be read before
    reads the same, and every bit from the old capacity up to [m] reads
    unset. *)
Theorem X2_grow_beyond_capacity (a : Arch) (w s w' s' : list Z) (m : Z) :
  (wf_slice a w → Words.capacity a w < m → m + wordModMask a <= maxInt a →
   Words.Grow a w m = Ok w' →
     ∃ c : nat,
       w' = w ++ replicate c 0
       ∧ (len w + Z.of_nat c - 1) * wordBits a < m
         <= (len w + Z.of_nat c) * wordBits a
       ∧ (∀ i, Words.word a i < len w → Words.Get a w' i = Words.Get a w i)
       ∧ (∀ i, Words.capacity a w <= i < m → Words.Get a w' i = Ok false))
  ∧ (wf_slice a s → Bytes.capacity s < m → m + byteModMask <= maxInt a →
     Bytes.Grow a s m = Ok s' →
     ∃ c : nat,
       s' = s ++ replicate c 0
       ∧ (len s + Z.of_nat c - 1) * 8 < m <= (len s + Z.of_nat c) * 8
       ∧ (∀ i, Bytes.byte a i < len s → Bytes.Get a s' i = Bytes.Get a s i)
       ∧ (∀ i, Bytes.capacity s <= i < m → Bytes.Get a s' i = Ok false)).
Proof.
  split; intros Hwf Hcap Hfit HG.
  - destruct (Words_Grow_extends a w m Hwf Hcap Hfit) as (c & HG' & H).
    rewrite HG in HG'. injection HG' as ->. by exists c.
  - destruct (Bytes_Grow_extends a s m Hwf Hcap Hfit) as (c & HG' & H).
    rewrite HG in HG'. injection HG' as ->. by exists c.
Qed.

Lemma X2_grow_beyond_capacity_witness :
  ∃ c : nat,
    [5; 0; 0] = [5] ++ replicate c 0
    ∧ (len [5] + Z.of_nat c - 1) * 8 < 20 <= (len [5] + Z.of_nat c) * 8
    ∧ (∀ i, Bytes.byte Arch64 i < len [5] →
         Bytes.Get Arch64 [5; 0; 0] i = Bytes.Get Arch64 [5] i)
    ∧ (∀ i, Bytes.capacity [5] <= i < 20 →
         Bytes.Get Arch64 [5; 0; 0] i = Ok false).
Proof.
  apply (X2_grow_beyond_capacity Arch64 [] [5] [] [5; 0; 0] 20); vm_compute;
    congruence.
Defined.

(** X3: on the [int]-indexed [Words] and [Bytes], whatever the size, the
    slice [Grow] leaves when it returns is the old slice followed by
    zeros only: [Grow] never truncates or reorders, the length still fits
    [int], and every bit that could be read before reads the same. *)
Theorem X3_grow_keeps_prefix (a : Arch) (w s w' s' : list Z) (m : Z) :
  (wf_slice a w → Words.Grow a w m = Ok w' →
     ∃ c : nat,
       w' = w ++ replicate c 0
       ∧ wf_slice a w'
       ∧ ∀ i, Words.word a i < len w → Words.Get a w' i = Words.Get a w i)
  ∧ (wf_slice a s → Bytes.Grow a s m = Ok s' →
     ∃ c : nat,
       s' = s ++ replicate c 0
       ∧ wf_slice a s'
       ∧ ∀ i, Bytes.byte a i < len s → Bytes.Get a s' i = Bytes.Get a s i).
Proof.
  split; intros Hwf HG.
  - destruct (dense_grow_total a (wordShift a) (wordShift_nonneg a) w m Hwf)
      as (c & HG' & Hwf').
    rewrite Words_Grow_dense, HG' in HG. injection HG as <-.
    exists c. split; [done|]. split; [done|].
    intros i Hi. rewrite !Words_Get_dense. by apply dense_get_app_old.
  - destruct (dense_grow_total a byteShift byteShift_nonneg s m Hwf)
      as (c & HG' & Hwf').
    rewrite Bytes_Grow_dense, HG' in HG. injection HG as <-.
    exists c. split; [done|]. split; [done|].
    intros i Hi. rewrite !Bytes_Get_dense. by apply dense_get_app_old.
Qed.

Lemma X3_grow_keeps_prefix_witness :
  ∃ c : nat,
    [9; 0; 0] = [9] ++ replicate c 0
    ∧ wf_slice Arch32 [9; 0; 0]
    ∧ ∀ i, Words.word Arch32 i < len [9] →
        Words.Get Arch32 [9; 0; 0] i = Words.Get Arch32 [9] i.
Proof.
  apply (X3_grow_keeps_prefix Arch32 [9] [] [9; 0; 0] [] 70); vm_compute;
    congruence.
Defined.

(** [Grow] of the [uint]-indexed form, with memory for what it asks. *)
Lemma UWords_Grow_model (a : Arch) (w : list Z) (m : Z) :
  0 <= m → wf_slice a w → m + wordModMask a < 2 ^ intBits a →
  UintVariant.Words.Grow a w m
  = if (m + wordModMask a) / wordBits a <? len w then Panic
    else Ok (w ++ replicate
                    (Z.to_nat ((m + wordModMask a) / wordBits a - len w)) 0).
Proof.
  intros Hm Hwf Hfit. rewrite UWords_Grow_dense.
  rewrite (dense_ugrow_spec a (wordShift a) (wordShift_nonneg a)
             (wordShift_small a) w m); try done.
  - rewrite wordShift_pow.
    by replace (m + wordBits a - 1) with (m + wordModMask a)
      by (unfold wordModMask; lia).
  - destruct a; cbv; congruence.
  - by rewrite mask_wordShift.
Qed.

Lemma UBytes_Grow_model (a : Arch) (s : list Z) (m : Z) :
  0 <= m → wf_slice a s → m + byteModMask < 2 ^ intBits a →
  UintVariant.Bytes.Grow a s m
  = if (m + byteModMask) / 8 <? len s then Panic
    else Ok (s ++ replicate (Z.to_nat ((m + byteModMask) / 8 - len s)) 0).
Proof.
  intros Hm Hwf Hfit. rewrite UBytes_Grow_dense.
  rewrite (dense_ugrow_spec a byteShift byteShift_nonneg
             (byteShift_small a) s m); try done.
  change (2 ^ byteShift) with 8.
  by replace (m + 8 - 1) with (m + byteModMask)
    by (unfold byteModMask; lia).
Qed.

(** X4: on the [uint]-indexed [Words] and [Bytes], for a size [m] whose
    rounding does not overflow: [Grow] panics when the rounded length is
    below the current length, returns the set as it is when the two are
    equal, and whenever it returns, the rounded length is not below the
    current one and the slice it leaves is the old one followed by the
    zeros that were missing. *)
Theorem X4_uint_grow (a : Arch) (w s w' s' : list Z) (m : Z) :
  0 <= m →
  (wf_slice a w → m + wordModMask a < 2 ^ intBits a →
     ((m + wordModMask a) / wordBits a < len w →
        UintVariant.Words.Grow a w m = Panic)
     ∧ ((m + wordModMask a) / wordBits a = len w →
        UintVariant.Words.Grow a w m = Ok w)
     ∧ (UintVariant.Words.Grow a w m = Ok w' →
        len w <= (m + wordModMask a) / wordBits a
        ∧ w' = w ++ replicate
                      (Z.to_nat ((m + wordModMask a) / wordBits a - len w)) 0))
  ∧ (wf_slice a s → m + byteModMask < 2 ^ intBits a →
     ((m + byteModMask) / 8 < len s → UintVariant.Bytes.Grow a s m = Panic)
     ∧ ((m + byteModMask) / 8 = len s → UintVariant.Bytes.Grow a s m = Ok s)
     ∧ (UintVariant.Bytes.Grow a s m = Ok s' →
        len s <= (m + byteModMask) / 8
        ∧ s' = s ++ replicate (Z.to_nat ((m + byteModMask) / 8 - len s)) 0)).
Proof.
  intros Hm. split; intros Hwf Hfit.
  - rewrite (UWords_Grow_model a w m Hm Hwf Hfit).
    destruct (Z.ltb_spec ((m + wordModMask a) / wordBits a) (len w));
      (split; [|split]); try done; try lia.
    + intros E. rewrite E, Z.sub_diag. simpl. by rewrite app_nil_r.
    + intros [= <-]. done.
  - rewrite (UBytes_Grow_model a s m Hm Hwf Hfit).
    destruct (Z.ltb_spec ((m + byteModMask) / 8) (len s));
      (split; [|split]); try done; try lia.
    + intros E. rewrite E, Z.sub_diag. simpl. by rewrite app_nil_r.
    + intros [= <-]. done.
Qed.

Lemma X4_uint_grow_witness :
  UintVariant.Words.Grow Arch64 [1; 2; 3] 65 = Panic
  ∧ UintVariant.Bytes.Grow Arch64 [1; 7] 9 = Ok [1; 7].
Proof.
  split.
  - apply (X4_uint_grow Arch64 [1; 2; 3] [] [] [] 65); vm_compute;
      congruence.
  - apply (X4_uint_grow Arch64 [] [1; 7] [] [] 9); vm_compute; congruence.
Defined.

(** [NewWords] and [NewBytes], with memory for what they ask. *)
Lemma Words_New_model (a : Arch) (n : Z) :
  is_int a n →
  Words.NewWords a n
  = if (n <=? - wordBits a) || (maxInt a - wordModMask a <? n) then Panic
    else Ok (replicate (Z.to_nat ((n + wordModMask a) / wordBits a)) 0).
Proof.
  intros Hn. rewrite Words_New_dense.
  rewrite (dense_new_spec a (wordShift a) (wordShift_nonneg a)
             (wordShift_small a) n Hn).
  rewrite mask_wordShift, wordShift_pow.
  by replace (n + wordBits a - 1) with (n + wordModMask a)
    by (unfold wordModMask; lia).
Qed.

Lemma Bytes_New_model (a : Arch) (n : Z) :
  is_int a n →
  Bytes.NewBytes a n
  = if (n <=? - 8) || (maxInt a - byteModMask <? n) then Panic
    else Ok (replicate (Z.to_nat ((n + byteModMask) / 8)) 0).
Proof.
  intros Hn. rewrite Bytes_New_dense.
  rewrite (dense_new_spec a byteShift byteShift_nonneg
             (byteShift_small a) n Hn).
  change (2 ^ byteShift) with 8. change (Dense.mask byteShift) with 7.
  by replace (n + 8 - 1) with (n + byteModMask)
    by (unfold byteModMask; lia).
Qed.

(** X5: [NewWords] and [NewBytes] on a size [n] of type [int]: a panic
    when [n] is at or below minus the element width or when rounding [n]
    up overflows [int]; the empty slice for a size from just above minus
    the element width up to zero; and whenever they return, a slice of
    zeros of the rounded-up length. *)
Theorem X5_new_sets (a : Arch) (n : Z) (w s : list Z) :
  is_int a n →
  ((n <= - wordBits a ∨ maxInt a - wordModMask a < n →
      Words.NewWords a n = Panic)
   ∧ (- wordBits a < n <= 0 → Words.NewWords a n = Ok [])
   ∧ (Words.NewWords a n = Ok w →
      - wordBits a < n <= maxInt a - wordModMask a
      ∧ w = replicate (Z.to_nat ((n + wordModMask a) / wordBits a)) 0))
  ∧ ((n <= - 8 ∨ maxInt a - byteModMask < n → Bytes.NewBytes a n = Panic)
     ∧ (- 8 < n <= 0 → Bytes.NewBytes a n = Ok [])
     ∧ (Bytes.NewBytes a n = Ok s →
        - 8 < n <= maxInt a - byteModMask
        ∧ s = replicate (Z.to_nat ((n + byteModMask) / 8)) 0)).
Proof.
  intros Hn. split.
  - rewrite (Words_New_model a n Hn).
    assert (0 < wordBits a) as HW by (destruct a; reflexivity).
    assert (maxInt a - wordModMask a >= 0) as HM
      by (destruct a; cbv; congruence).
    destruct (Z.leb_spec n (- wordBits a)) as [H1|H1];
      destruct (Z.ltb_spec (maxInt a - wordModMask a) n) as [H2|H2];
      cbn [orb]; (split; [|split]); try done; try lia.
    + intros H. rewrite Z.div_small; [done|]. unfold wordModMask. lia.
    + intros [= <-]. split; [lia|done].
  - rewrite (Bytes_New_model a n Hn).
    assert (maxInt a - byteModMask >= 0) as HM
      by (destruct a; cbv; congruence).
    destruct (Z.leb_spec n (- 8)) as [H1|H1];
      destruct (Z.ltb_spec (maxInt a - byteModMask) n) as [H2|H2];
      cbn [orb]; (split; [|split]); try done; try lia.
    + intros H. rewrite Z.div_small; [done|]. unfold byteModMask. lia.
    + intros [= <-]. split; [lia|done].
Qed.

Lemma X5_new_sets_witness :
  Words.NewWords Arch64 (-64) = Panic
  ∧ Bytes.NewBytes Arch64 (-7) = Ok []
  ∧ Bytes.NewBytes Arch32 2147483647 = Panic
  ∧ (- 8 < 17 <= maxInt Arch32 - byteModMask
     ∧ [0; 0; 0] = replicate (Z.to_nat ((17 + byteModMask) / 8)) 0).
Proof.
  split; [|split; [|split]].
  - apply (X5_new_sets Arch64 (-64) [] []); vm_compute;
      [split; congruence|left; congruence].
  - apply (X5_new_sets Arch64 (-7) [] []); vm_compute; split; congruence.
  - apply (X5_new_sets Arch32 2147483647 [] []); vm_compute;
      [split; congruence|right; reflexivity].
  - apply (X5_new_sets Arch32 17 [] [0; 0; 0]); vm_compute;
      [split; congruence|reflexivity].
Defined.

(** X6: on a [Words] or [Bytes] whose capacity in bits is within the
    range of [int], every negative index panics in [Get], [Set] and
    [Unset]: the conversion to [uint] sends it above every element, and
    it never wraps into range. *)
Theorem X6_negative_index_panics (a : Arch) (w s : list Z) (i : Z) :
  is_int a i → i < 0 →
  (Words.capacity a w <= maxInt a + 1 →
     Words.Get a w i = Panic ∧ Words.Set_ a w i = Panic
     ∧ Words.Unset a w i = Panic)
  ∧ (Bytes.capacity s <= maxInt a + 1 →
     Bytes.Get a s i = Panic ∧ Bytes.Set_ a s i = Panic
     ∧ Bytes.Unset a s i = Panic).
Proof.
  intros Hi Hneg. split; intros Hcap.
  - rewrite Words_Get_dense, Words_Set_dense, Words_Unset_dense.
    apply dense_out_of_range. rewrite slot_div by apply wordShift_nonneg.
    unfold Words.capacity in Hcap. rewrite wordBits_eq in Hcap.
    rewrite wordShift_eq. revert Hcap. generalize (len w). intros l Hcap.
    arch_lia a.
  - rewrite Bytes_Get_dense, Bytes_Set_dense, Bytes_Unset_dense.
    apply dense_out_of_range. rewrite slot_div by apply byteShift_nonneg.
    unfold Bytes.capacity in Hcap. unfold byteShift.
    revert Hcap. generalize (len s). intros l Hcap.
    arch_lia a.
Qed.

Lemma X6_negative_index_panics_witness :
  Words.Get Arch64 [7; 7] (-1) = Panic
  ∧ Words.Set_ Arch64 [7; 7] (-1) = Panic
  ∧ Words.Unset Arch64 [7; 7] (-1) = Panic.
Proof.
  apply (X6_negative_index_panics Arch64 [7; 7] [] (-1)); vm_compute;
    try split; congruence.
Defined.

(** ** The three bitsets satisfy the common laws *)

Lemma dense_lawful (a : Arch) (n eb : Z) :
  0 <= n → 2 ^ n <= eb →
  Lawful (Dense_BitSet a n eb) (Dense_addr a n) len.
Proof.
  intros Hn Heb. split.
  - intros s i [Hi Hlt]. pose proof (to_uint_nonneg a i) as Hu.
    pose proof (slot_nonneg n Hn _ Hu).
    destruct (index_lt s (Dense.slot n (to_uint a i))) as [x Hx]; [lia|].
    eexists. cbn [BitSet.Get Dense_BitSet]. by apply Get_read.
  - intros s i [Hi Hlt]. cbn [BitSet.Get BitSet.Set_ Dense_BitSet].
    destruct (dense_set_reads n eb s (to_uint a i) Hn Heb
                (to_uint_nonneg a i) Hlt) as (s1 & HS & Hl & HR).
    exists s1. split; [done|]. split; [done|]. split.
    + intros j. unfold Dense_addr. by rewrite Hl.
    + intros j [Hj _]. rewrite HR by apply to_uint_nonneg.
      case_decide as E.
      * subst j. by rewrite Z.eqb_refl.
      * destruct (Z.eqb_spec (to_uint a i) (to_uint a j)) as [E'|E'];
          [|done].
        exfalso. by apply E, (to_uint_inj a).
  - intros s i [Hi Hlt]. cbn [BitSet.Get BitSet.Unset Dense_BitSet].
    destruct (dense_unset_reads n eb s (to_uint a i) Hn Heb
                (to_uint_nonneg a i) Hlt) as (s1 & HS & Hl & HR).
    exists s1. split; [done|]. split; [done|]. split.
    + intros j. unfold Dense_addr. by rewrite Hl.
    + intros j [Hj _]. rewrite HR by apply to_uint_nonneg.
      case_decide as E.
      * subst j. by rewrite Z.eqb_refl.
      * destruct (Z.eqb_spec (to_uint a i) (to_uint a j)) as [E'|E'];
          [|done].
        exfalso. by apply E, (to_uint_inj a).
  - intros s i b. reflexivity.
Qed.

Lemma Words_lawful (a : Arch) : Lawful (Words_BitSet a) (Words_addr a) len.
Proof.
  destruct a.
  - exact (dense_lawful Arch32 (wordShift Arch32) (uintptrBits Arch32)
             (wordShift_nonneg Arch32) (wordShift_fits Arch32)).
  - exact (dense_lawful Arch64 (wordShift Arch64) (uintptrBits Arch64)
             (wordShift_nonneg Arch64) (wordShift_fits Arch64)).
Qed.

Lemma Bytes_lawful (a : Arch) : Lawful (Bytes_BitSet a) (Bytes_addr a) len.
Proof. exact (dense_lawful a byteShift 8 byteShift_nonneg byteShift_fits). Qed.

Lemma Sparse_lawful (a : Arch) :
  Lawful (Sparse_BitSet a) (Sparse_addr a) (fun _ => 0).
Proof.
  split.
  - intros s i _. by eexists.
  - intros s i Hi. eexists. split; [done|]. split; [done|]. split; [done|].
    intros j Hj. cbn [BitSet.Get Sparse_BitSet]. case_decide as E.
    + subst j. by rewrite Sparse_Set_Get.
    + by rewrite Sparse_Set_other.
  - intros s i Hi. eexists. split; [done|]. split; [done|]. split; [done|].
    intros j Hj. cbn [BitSet.Get Sparse_BitSet]. case_decide as E.
    + subst j. by rewrite Sparse_Unset_Get.
    + by rewrite Sparse_Unset_other.
  - intros s i b. by destruct b.
Qed.

(** ** What follows from the common laws *)

Section LawfulLaws.
Context {T : Type} (B : BitSet.BitSet T).
Context (addr : T → Z → Prop) (shape : T → Z).
Hypothesis L : Lawful B addr shape.

Lemma setbool_reads (s : T) (i : Z) (b : bool) :
  addr s i →
  ∃ s', BitSet.SetBool s i b = Ok s'
        ∧ shape s' = shape s
        ∧ (∀ j, addr s' j ↔ addr s j)
        ∧ (∀ j, addr s j →
             BitSet.Get s' j
             = if decide (i = j) then Ok b else BitSet.Get s j).
Proof using L.
  intros Hi. rewrite (law_setbool _ _ _ L).
  destruct b; [by apply (law_set _ _ _ L) | by apply (law_unset _ _ _ L)].
Qed.

(** The loop that sets a slice of booleans from index [bit] on. *)
Lemma setBools_reads (bits : list bool) (s : T) (bit : Z) :
  (∀ k, 0 <= k < len bits → addr s (bit + k)) →
  ∃ s', Users.setBools B s bit bits = Ok s'
        ∧ shape s' = shape s
        ∧ (∀ j, addr s' j ↔ addr s j)
        ∧ (∀ (k : nat) b, bits !! k = Some b →
             BitSet.Get s' (bit + Z.of_nat k) = Ok b)
        ∧ (∀ j, addr s j → ¬ (bit <= j < bit + len bits) →
             BitSet.Get s' j = BitSet.Get s j).
Proof using L.
  revert s bit. induction bits as [|val rest IH]; intros s bit Haddr.
  - exists s. simpl. split; [done|]. split; [done|]. split; [done|].
    split; [|done]. intros k b. by rewrite lookup_nil.
  - assert (addr s bit) as H0.
    { replace bit with (bit + 0) by lia. apply Haddr.
      unfold len. simpl. lia. }
    destruct (setbool_reads s bit val H0) as (s1 & HS & Hsh & Ha & HR).
    destruct (IH s1 (bit + 1)) as (s' & HS' & Hsh' & Ha' & Hin & Hout).
    { intros k Hk. apply Ha. replace (bit + 1 + k) with (bit + (k + 1)) by lia.
      apply Haddr. unfold len in *. simpl. lia. }
    exists s'. cbn [Users.setBools]. rewrite HS, bind_Ok.
    split; [done|]. split; [congruence|]. split.
    { intros j. by rewrite Ha', Ha. }
    split.
    + intros [|k] b Hk.
      * injection Hk as ->. rewrite Z.add_0_r.
        rewrite Hout; [|by apply Ha|lia].
        rewrite HR by done. by rewrite decide_True.
      * simpl in Hk. specialize (Hin k b Hk).
        by replace (bit + Z.of_nat (S k)) with (bit + 1 + Z.of_nat k) by lia.
    + intros j Hj Hr. unfold len in *. simpl in Hr.
      rewrite Hout; [|by apply Ha|lia].
      rewrite HR by done. rewrite decide_False; [done|lia].
Qed.

(** The loop that reads a slice of booleans back reports no error when
    every bit reads as the slice says. *)
Lemma checkBools_true (bits : list bool) (s : T) (bit : Z) :
  (∀ (k : nat) b, bits !! k = Some b →
     BitSet.Get s (bit + Z.of_nat k) = Ok b) →
  Users.checkBools B s bit bits = Ok true.
Proof.
  revert bit. induction bits as [|exp rest IH]; intros bit H; [done|].
  cbn [Users.checkBools].
  pose proof (H 0%nat exp eq_refl) as H0. rewrite Z.add_0_r in H0.
  rewrite H0, bind_Ok, eqb_reflx. apply IH.
  intros k b Hk. specialize (H (S k) b Hk).
  by replace (bit + 1 + Z.of_nat k) with (bit + Z.of_nat (S k)) by lia.
Qed.

(** The first loop of [TestInRange] reports no error. *)
Lemma setAndCheck_passes (bits : list bool) (s : T) (bit : Z) :
  (∀ k, 0 <= k < len bits → addr s (bit + k)) →
  ∃ s', Users.setAndCheck B s bit bits = Ok (Some s')
        ∧ shape s' = shape s
        ∧ (∀ j, addr s' j ↔ addr s j).
Proof using L.
  revert s bit. induction bits as [|val rest IH]; intros s bit Haddr.
  - by exists s.
  - assert (addr s bit) as H0.
    { replace bit with (bit + 0) by lia. apply Haddr.
      unfold len. simpl. lia. }
    destruct (setbool_reads s bit val H0) as (s1 & HS & Hsh & Ha & HR).
    destruct (IH s1 (bit + 1)) as (s' & HS' & Hsh' & Ha').
    { intros k Hk. apply Ha. replace (bit + 1 + k) with (bit + (k + 1)) by lia.
      apply Haddr. unfold len in *. simpl. lia. }
    exists s'. cbn [Users.setAndCheck]. rewrite HS, bind_Ok.
    rewrite HR by done. rewrite decide_True, bind_Ok, eqb_reflx by done.
    split; [done|]. split; [congruence|].
    intros j. by rewrite Ha', Ha.
Qed.

(** The second loop of [TestInRange] reports no error while its index
    stays within [bitsToSet], and panics when it leaves it. *)
Lemma unsetAndCheck_spec (bitsToSet bits : list bool) (s : T) (bit : Z) :
  0 <= bit <= len bitsToSet →
  (∀ k, 0 <= k < len bits → bit + k < len bitsToSet → addr s (bit + k)) →
  Users.unsetAndCheck B bitsToSet s bit bits
  = if bit + len bits <=? len bitsToSet then Ok true else Panic.
Proof using L.
  revert s bit. induction bits as [|unset rest IH]; intros s bit Hb Haddr.
  - cbn [Users.unsetAndCheck]. change (len (@nil bool)) with 0.
    rewrite Z.add_0_r.
    destruct (Z.leb_spec bit (len bitsToSet)); [done|lia].
  - cbn [Users.unsetAndCheck].
    assert (len (unset :: rest) = len rest + 1) as El
      by (unfold len; simpl; lia).
    pose proof (len_nonneg rest) as Hr.
    destruct (Z.lt_ge_cases bit (len bitsToSet)) as [Hlt|Hge].
    + assert (∃ v, indexB bitsToSet bit = Ok v) as [v Hv].
      { unfold indexB, len in *. destruct (Z.ltb_spec bit 0); [lia|].
        destruct (lookup_lt_is_Some_2 bitsToSet (Z.to_nat bit)) as [v Hv];
          [lia|].
        exists v. by rewrite Hv. }
      rewrite Hv, bind_Ok.
      assert (addr s bit) as H0.
      { replace bit with (bit + 0) by lia. apply Haddr; lia. }
      destruct (setbool_reads s bit (v && negb unset) H0)
        as (s1 & HS & Hsh & Ha & HR).
      rewrite HS, bind_Ok, HR by done.
      rewrite decide_True, bind_Ok, eqb_reflx by done.
      rewrite IH.
      * rewrite El.
        by replace (bit + 1 + len rest) with (bit + (len rest + 1)) by lia.
      * lia.
      * intros k Hk Hk'. apply Ha.
        replace (bit + 1 + k) with (bit + (k + 1)) by lia.
        apply Haddr; lia.
    + assert (indexB bitsToSet bit = Panic) as ->.
      { unfold indexB, len in *. destruct (Z.ltb_spec bit 0); [done|].
        rewrite (proj2 (lookup_ge_None bitsToSet (Z.to_nat bit))); [done|].
        lia. }
      destruct (Z.leb_spec (bit + len (unset :: rest)) (len bitsToSet));
        [lia|done].
Qed.

(** Any calls in a row: with every index addressable, two lawful bitsets
    that answer alike before answer alike throughout. *)
Lemma run_succeeds (cs : list Sparse.call) (s : T) :
  Forall (fun c => addr s (Users.call_index c)) cs →
  ∃ s' out, Users.run B cs s = Ok (s', out)
            ∧ shape s' = shape s ∧ (∀ j, addr s' j ↔ addr s j).
Proof using L.
  revert s. induction cs as [|c rest IH]; intros s Hall.
  - by exists s, [].
  - inversion Hall as [|? ? Hc Hrest]; subst.
    assert (∀ s1, (∀ j, addr s1 j ↔ addr s j) →
              Forall (fun c => addr s1 (Users.call_index c)) rest) as Hmove.
    { intros s1 Ha. eapply Forall_impl; [exact Hrest|].
      intros c' Hc'. by apply Ha. }
    destruct c as [i|i|i|i b]; cbn [Users.run Users.call_index] in *.
    + destruct (law_get _ _ _ L s i Hc) as [b Hb]. rewrite Hb, bind_Ok.
      destruct (IH s Hrest) as (s' & out & HR & Hsh & Ha).
      exists s', (b :: out). by rewrite HR, bind_Ok.
    + destruct (law_set _ _ _ L s i Hc) as (s1 & HS & Hsh1 & Ha1 & _).
      rewrite HS, bind_Ok.
      destruct (IH s1 (Hmove s1 Ha1)) as (s' & out & HR & Hsh & Ha).
      exists s', out. split; [done|]. split; [congruence|].
      intros j. by rewrite Ha, Ha1.
    + destruct (law_unset _ _ _ L s i Hc) as (s1 & HS & Hsh1 & Ha1 & _).
      rewrite HS, bind_Ok.
      destruct (IH s1 (Hmove s1 Ha1)) as (s' & out & HR & Hsh & Ha).
      exists s', out. split; [done|]. split; [congruence|].
      intros j. by rewrite Ha, Ha1.
    + destruct (setbool_reads s i b Hc) as (s1 & HS & Hsh1 & Ha1 & _).
      rewrite HS, bind_Ok.
      destruct (IH s1 (Hmove s1 Ha1)) as (s' & out & HR & Hsh & Ha).
      exists s', out. split; [done|]. split; [congruence|].
      intros j. by rewrite Ha, Ha1.
Qed.
End LawfulLaws.

Section Agreement.
Context {T1 T2 : Type} (B1 : BitSet.BitSet T1) (B2 : BitSet.BitSet T2).
Context (addr1 : T1 → Z → Prop) (shape1 : T1 → Z).
Context (addr2 : T2 → Z → Prop) (shape2 : T2 → Z).
Hypothesis L1 : Lawful B1 addr1 shape1.
Hypothesis L2 : Lawful B2 addr2 shape2.

(** Two lawful bitsets that answer alike, after the same write. *)
Lemma agree_step (i : Z) (b : bool) (s1 s1' : T1) (s2 s2' : T2) :
  (∀ j, addr1 s1 j → addr2 s2 j → BitSet.Get s1 j = BitSet.Get s2 j) →
  (∀ j, addr1 s1' j ↔ addr1 s1 j) → (∀ j, addr2 s2' j ↔ addr2 s2 j) →
  (∀ j, addr1 s1 j →
     BitSet.Get s1' j = if decide (i = j) then Ok b else BitSet.Get s1 j) →
  (∀ j, addr2 s2 j →
     BitSet.Get s2' j = if decide (i = j) then Ok b else BitSet.Get s2 j) →
  ∀ j, addr1 s1' j → addr2 s2' j → BitSet.Get s1' j = BitSet.Get s2' j.
Proof.
  intros Hag Ha1 Ha2 HR1 HR2 j Hj1 Hj2.
  apply Ha1 in Hj1. apply Ha2 in Hj2.
  rewrite HR1, HR2 by done. case_decide; [done|by apply Hag].
Qed.

Lemma run_agree (cs : list Sparse.call) (s1 : T1) (s2 : T2) :
  Forall (fun c => addr1 s1 (Users.call_index c)) cs →
  Forall (fun c => addr2 s2 (Users.call_index c)) cs →
  (∀ j, addr1 s1 j → addr2 s2 j → BitSet.Get s1 j = BitSet.Get s2 j) →
  ∃ s1' s2' out,
    Users.run B1 cs s1 = Ok (s1', out)
    ∧ Users.run B2 cs s2 = Ok (s2', out)
    ∧ (∀ j, addr1 s1' j → addr2 s2' j → BitSet.Get s1' j = BitSet.Get s2' j).
Proof using L1 L2.
  revert s1 s2. induction cs as [|c rest IH]; intros s1 s2 H1 H2 Hag.
  - by exists s1, s2, [].
  - inversion H1 as [|? ? Hc1 Hr1]; subst.
    inversion H2 as [|? ? Hc2 Hr2]; subst.
    assert (∀ s1' s2',
              (∀ j, addr1 s1' j ↔ addr1 s1 j) →
              (∀ j, addr2 s2' j ↔ addr2 s2 j) →
              Forall (fun c => addr1 s1' (Users.call_index c)) rest
              ∧ Forall (fun c => addr2 s2' (Users.call_index c)) rest)
      as Hmove.
    { intros s1' s2' Ha1 Ha2. split.
      - eapply Forall_impl; [exact Hr1|]. intros c' Hc'. by apply Ha1.
      - eapply Forall_impl; [exact Hr2|]. intros c' Hc'. by apply Ha2. }
    destruct c as [i|i|i|i b]; cbn [Users.run Users.call_index] in *.
    + destruct (law_get _ _ _ L1 s1 i Hc1) as [b Hb].
      rewrite <- (Hag i Hc1 Hc2), Hb, !bind_Ok.
      destruct (IH s1 s2 Hr1 Hr2 Hag) as (s1' & s2' & out & R1 & R2 & Hag').
      exists s1', s2', (b :: out). by rewrite R1, R2, !bind_Ok.
    + destruct (law_set _ _ _ L1 s1 i Hc1) as (t1 & S1 & _ & A1 & G1).
      destruct (law_set _ _ _ L2 s2 i Hc2) as (t2 & S2 & _ & A2 & G2).
      rewrite S1, S2, !bind_Ok.
      destruct (Hmove t1 t2 A1 A2) as [F1 F2].
      apply (IH t1 t2 F1 F2).
      by apply (agree_step i true s1 t1 s2 t2).
    + destruct (law_unset _ _ _ L1 s1 i Hc1) as (t1 & S1 & _ & A1 & G1).
      destruct (law_unset _ _ _ L2 s2 i Hc2) as (t2 & S2 & _ & A2 & G2).
      rewrite S1, S2, !bind_Ok.
      destruct (Hmove t1 t2 A1 A2) as [F1 F2].
      apply (IH t1 t2 F1 F2).
      by apply (agree_step i false s1 t1 s2 t2).
    + destruct (setbool_reads B1 addr1 shape1 L1 s1 i b Hc1)
        as (t1 & S1 & _ & A1 & G1).
      destruct (setbool_reads B2 addr2 shape2 L2 s2 i b Hc2)
        as (t2 & S2 & _ & A2 & G2).
      rewrite S1, S2, !bind_Ok.
      destruct (Hmove t1 t2 A1 A2) as [F1 F2].
      apply (IH t1 t2 F1 F2).
      by apply (agree_step i b s1 t1 s2 t2).
Qed.
End Agreement.

(** ** Indexes a dense set can address *)

Lemma Dense_addr_below (a : Arch) (n : Z) (s : list Z) (k : Z) :
  0 <= n → 0 <= k <= maxInt a → k < len s * 2 ^ n → Dense_addr a n s k.
Proof.
  intros Hn Hk Hcap. split.
  - unfold is_int, minInt. pose proof (intBits_pos a).
    assert (0 < 2 ^ (intBits a - 1)) by (apply Z.pow_pos_nonneg; lia). lia.
  - rewrite to_uint_nonneg_int, slot_div by done.
    pose proof (pow_n_pos n Hn). apply Z.div_lt_upper_bound; lia.
Qed.

(** Every bit a new dense set can address reads unset. *)
Lemma dense_new_all_unset (a : Arch) (n eb m : Z) (s : list Z) (j : Z) :
  0 <= n → 2 ^ n <= eb → 2 ^ n <= maxInt a → is_int a m →
  Dense.New a n m = Ok s → Dense_addr a n s j →
  Dense.Get n eb s (to_uint a j) = Ok false.
Proof.
  intros Hn Heb Hpow Hm Hnew [Hj Hlt].
  destruct (dense_new_zeros a n Hn Hpow m s Hm Hnew) as (c & -> & Hc).
  apply dense_get_zeros; [done..|apply to_uint_nonneg|].
  unfold len in Hlt. by rewrite length_replicate in Hlt.
Qed.

(** A new dense set can address every index below its size, and its
    length fits [int]. *)
Lemma dense_new_addr (a : Arch) (n m : Z) (s : list Z) :
  0 <= n → 2 ^ n <= maxInt a → is_int a m → Dense.New a n m = Ok s →
  wf_slice a s ∧ ∀ k, 0 <= k < m → Dense_addr a n s k.
Proof.
  intros Hn Hpow Hm Hnew.
  assert (wf_slice a s) as Hwf.
  { unfold Dense.New, make in Hnew.
    destruct (Z.ltb_spec (Z.shiftr (int_add a m (Dense.mask n)) n) 0);
      [discriminate|].
    destruct (Z.ltb_spec (maxInt a)
                (Z.shiftr (int_add a m (Dense.mask n)) n)); [discriminate|].
    simpl in Hnew. injection Hnew as <-.
    unfold wf_slice. by rewrite len_replicate. }
  split; [done|]. intros k Hk.
  destruct (dense_new_zeros a n Hn Hpow m s Hm Hnew) as (c & -> & Hc).
  apply Dense_addr_below; [done| |].
  - unfold is_int in Hm. lia.
  - unfold len. rewrite length_replicate. lia.
Qed.

(** After [Grow], a dense set addresses what it addressed before and
    every index below the size asked for. *)
Lemma dense_grow_addr (a : Arch) (n : Z) (s : list Z) (m : Z) :
  0 <= n → 2 ^ n <= maxInt a →
  wf_slice a s → is_int a m → m + Dense.mask n <= maxInt a →
  ∃ s', Dense.Grow a n s m = Ok s'
        ∧ (∀ k, Dense_addr a n s k → Dense_addr a n s' k)
        ∧ (∀ k, 0 <= k < m → Dense_addr a n s' k).
Proof.
  intros Hn Hpow Hwf Hm Hfit. pose proof (pow_n_pos n Hn) as HP.
  destruct (Z.le_gt_cases m (len s * 2 ^ n)) as [Hle|Hgt].
  - exists s. split; [by apply dense_grow_noop|]. split; [done|].
    intros k Hk. apply Dense_addr_below; [done| |lia].
    unfold is_int in Hm. lia.
  - destruct (dense_grow_extends a n Hn Hpow s m Hwf Hgt Hfit)
      as (HG & Hlt & Hr).
    eexists. split; [exact HG|].
    set (t := (m + 2 ^ n - 1) / 2 ^ n) in *.
    assert (len (s ++ replicate (Z.to_nat (t - len s)) 0) = t) as El.
    { rewrite len_app, len_replicate by lia. lia. }
    split.
    + intros k [Hk Hs]. split; [done|]. rewrite El. lia.
    + intros k Hk. apply Dense_addr_below; [done| |].
      * unfold is_int in Hm. lia.
      * rewrite El. lia.
Qed.

(** The loops of the test file on the shared algorithm. *)
Lemma dense_set_bools (a : Arch) (n eb : Z) (bits : list bool) (s : list Z) :
  0 <= n → 2 ^ n <= eb →
  len bits <= maxInt a + 1 → len bits <= len s * 2 ^ n →
  ∃ s', Users.setBools (Dense_BitSet a n eb) s 0 bits = Ok s'
        ∧ len s' = len s
        ∧ Users.checkBools (Dense_BitSet a n eb) s' 0 bits = Ok true
        ∧ (∀ (k : nat) b, bits !! k = Some b →
             Dense.Get n eb s' (to_uint a (Z.of_nat k)) = Ok b)
        ∧ (∀ j, Dense_addr a n s j → ¬ (0 <= j < len bits) →
             Dense.Get n eb s' (to_uint a j) = Dense.Get n eb s (to_uint a j)).
Proof.
  intros Hn Heb Hfit Hcap.
  destruct (setBools_reads (Dense_BitSet a n eb) (Dense_addr a n) len
              (dense_lawful a n eb Hn Heb) bits s 0)
    as (s' & HS & Hsh & Ha & Hin & Hout).
  { intros k Hk. apply Dense_addr_below; [done|lia|lia]. }
  exists s'. split; [done|]. split; [done|]. split; [|split].
  - by apply checkBools_true.
  - intros k b Hk. apply (Hin k b Hk).
  - intros j Hj Hr. by apply Hout.
Qed.

Lemma dense_growing (a : Arch) (n eb : Z) (initialBits bitSets : list bool)
    (m : Z) (s0 : list Z) :
  0 <= n → 2 ^ n <= eb → 2 ^ n <= maxInt a →
  is_int a m → m + Dense.mask n <= maxInt a →
  len initialBits <= maxInt a →
  Dense.New a n (len initialBits) = Ok s0 →
  len bitSets <= Z.max (len initialBits) m →
  Users.growing (Dense_Grower a n eb) s0 initialBits m bitSets = Ok true.
Proof.
  intros Hn Heb Hpow Hm Hfit Hli Hnew Hlb.
  pose proof (len_nonneg initialBits) as Hi0.
  assert (is_int a (len initialBits)) as Hil.
  { unfold is_int, minInt. pose proof (intBits_pos a).
    assert (0 < 2 ^ (intBits a - 1)) by (apply Z.pow_pos_nonneg; lia). lia. }
  destruct (dense_new_addr a n (len initialBits) s0 Hn Hpow Hil Hnew)
    as [Hwf0 Ha0].
  pose proof (dense_lawful a n eb Hn Heb) as L.
  destruct (setBools_reads _ _ _ L initialBits s0 0)
    as (s1 & HS1 & Hsh1 & Ha1 & _ & _).
  { intros k Hk. apply Ha0. lia. }
  assert (wf_slice a s1) as Hwf1 by (unfold wf_slice in *; lia).
  destruct (dense_grow_addr a n s1 m Hn Hpow Hwf1 Hm Hfit)
    as (s2 & HG & Hold & Hnew2).
  destruct (setBools_reads _ _ _ L bitSets s2 0)
    as (s3 & HS3 & _ & _ & Hin & _).
  { intros k Hk. destruct (Z.lt_ge_cases k (len initialBits)).
    - apply Hold, Ha1, Ha0. lia.
    - apply Hnew2. lia. }
  unfold Users.growing. cbn [BitSet.Grower_BitSet BitSet.Grow Dense_Grower].
  rewrite HS1, bind_Ok, HG, bind_Ok, HS3, bind_Ok.
  by apply checkBools_true.
Qed.

Lemma Words_BitSet_dense (a : Arch) :
  Words_BitSet a = Dense_BitSet a (wordShift a) (uintptrBits a).
Proof. destruct a; reflexivity. Qed.

Lemma Words_Grower_dense (a : Arch) :
  Words_Grower a = Dense_Grower a (wordShift a) (uintptrBits a).
Proof. destruct a; reflexivity. Qed.

Lemma Words_capacity_pow (a : Arch) (w : list Z) :
  Words.capacity a w = len w * 2 ^ wordShift a.
Proof. unfold Words.capacity. by rewrite wordShift_pow. Qed.

Lemma small_index_is_int (a : Arch) (k : Z) : 0 <= k <= maxInt a → is_int a k.
Proof.
  intros Hk. unfold is_int, minInt. pose proof (intBits_pos a).
  assert (0 < 2 ^ (intBits a - 1)) by (apply Z.pow_pos_nonneg; lia). lia.
Qed.

Lemma Sparse_get_empty (a : Arch) (j : Z) : Sparse.Get a ∅ j = false.
Proof.
  unfold Sparse.Get, Sparse.read. rewrite lookup_empty.
  cbn [default]. by rewrite Z.land_0_l.
Qed.

Lemma inRange_spec {T : Type} (B : BitSet.BitSet T) (addr : T → Z → Prop)
    (shape : T → Z) (s : T) (bitsToSet bitsToUnset : list bool) :
  Lawful B addr shape →
  (∀ k, 0 <= k < len bitsToSet → addr s k) →
  Users.inRange B s bitsToSet bitsToUnset
  = if len bitsToUnset <=? len bitsToSet then Ok true else Panic.
Proof.
  intros L Haddr.
  destruct (setAndCheck_passes B addr shape L bitsToSet s 0)
    as (s' & HS & _ & Ha).
  { intros k Hk. by apply Haddr. }
  unfold Users.inRange. rewrite HS, bind_Ok.
  rewrite (unsetAndCheck_spec B addr shape L); [done| |].
  - pose proof (len_nonneg bitsToSet). lia.
  - intros k Hk Hk'. apply Ha, Haddr. lia.
Qed.

(** X7: the loop [for bit, val := range bits { SetBool(bit, val) }] on a
    bitset that can address every index of [bits] runs without a panic;
    afterwards [Get(k)] is [bits[k]] for every index of [bits], the loop
    that reads them back reports no error, every other addressable bit
    reads as before, and a dense set has the length it had. *)
Theorem X7_set_bools_round_trip (a : Arch) (bits : list bool) (w s : list Z)
    (m : gmap Z Z) :
  len bits <= maxInt a + 1 →
  (len bits <= Words.capacity a w →
     ∃ w', Users.setBools (Words_BitSet a) w 0 bits = Ok w'
           ∧ len w' = len w
           ∧ Users.checkBools (Words_BitSet a) w' 0 bits = Ok true
           ∧ (∀ (k : nat) b, bits !! k = Some b →
                Words.Get a w' (Z.of_nat k) = Ok b)
           ∧ (∀ j, Words_addr a w j → ¬ (0 <= j < len bits) →
                Words.Get a w' j = Words.Get a w j))
  ∧ (len bits <= Bytes.capacity s →
     ∃ s', Users.setBools (Bytes_BitSet a) s 0 bits = Ok s'
           ∧ len s' = len s
           ∧ Users.checkBools (Bytes_BitSet a) s' 0 bits = Ok true
           ∧ (∀ (k : nat) b, bits !! k = Some b →
                Bytes.Get a s' (Z.of_nat k) = Ok b)
           ∧ (∀ j, Bytes_addr a s j → ¬ (0 <= j < len bits) →
                Bytes.Get a s' j = Bytes.Get a s j))
  ∧ (∃ m', Users.setBools (Sparse_BitSet a) m 0 bits = Ok m'
           ∧ Users.checkBools (Sparse_BitSet a) m' 0 bits = Ok true
           ∧ (∀ (k : nat) b, bits !! k = Some b →
                Sparse.Get a m' (Z.of_nat k) = b)
           ∧ (∀ j, is_int a j → ¬ (0 <= j < len bits) →
                Sparse.Get a m' j = Sparse.Get a m j)).
Proof.
  intros Hfit. split; [|split].
  - intros Hcap. rewrite Words_capacity_pow in Hcap.
    rewrite Words_BitSet_dense.
    destruct (dense_set_bools a (wordShift a) (uintptrBits a) bits w
                (wordShift_nonneg a) (wordShift_fits a) Hfit Hcap)
      as (w' & HS & Hl & HC & Hin & Hout).
    exists w'. split; [done|]. split; [done|]. split; [done|]. split.
    + intros k b Hk. rewrite Words_Get_dense. by apply Hin.
    + intros j Hj Hr. rewrite !Words_Get_dense. by apply Hout.
  - intros Hcap.
    destruct (dense_set_bools a byteShift 8 bits s
                byteShift_nonneg byteShift_fits Hfit Hcap)
      as (s' & HS & Hl & HC & Hin & Hout).
    exists s'. split; [exact HS|]. split; [done|]. split; [exact HC|]. split.
    + intros k b Hk. rewrite Bytes_Get_dense. by apply Hin.
    + intros j Hj Hr. rewrite !Bytes_Get_dense. by apply Hout.
  - destruct (setBools_reads (Sparse_BitSet a) (Sparse_addr a) (fun _ => 0)
                (Sparse_lawful a) bits m 0)
      as (m' & HS & _ & _ & Hin & Hout).
    { intros k Hk. apply small_index_is_int. lia. }
    exists m'. split; [done|]. split; [by apply checkBools_true|]. split.
    + intros k b Hk. specialize (Hin k b Hk).
      cbn [BitSet.Get Sparse_BitSet] in Hin. by injection Hin.
    + intros j Hj Hr. specialize (Hout j Hj Hr).
      cbn [BitSet.Get Sparse_BitSet] in Hout. by injection Hout.
Qed.

Lemma X7_set_bools_round_trip_witness :
  ∃ s', Users.setBools (Bytes_BitSet Arch64) [255; 0] 0
          [true; false; true] = Ok s'
        ∧ len s' = len [255; 0]
        ∧ Users.checkBools (Bytes_BitSet Arch64) s' 0 [true; false; true]
          = Ok true
        ∧ (∀ (k : nat) b, [true; false; true] !! k = Some b →
             Bytes.Get Arch64 s' (Z.of_nat k) = Ok b)
        ∧ (∀ j, Bytes_addr Arch64 [255; 0] j →
             ¬ (0 <= j < len [true; false; true]) →
             Bytes.Get Arch64 s' j = Bytes.Get Arch64 [255; 0] j).
Proof.
  apply (X7_set_bools_round_trip Arch64 [true; false; true] [] [255; 0] ∅);
    vm_compute; congruence.
Defined.

(** X8: the body of [TestGrowing] for every table entry, on a [Words]
    and on a [Bytes] made for [len(initialBits)] bits: setting the
    initial bits succeeds, and whenever [Grow(newNumBits)] then returns,
    the bits of [bitSets] are set and read back without a panic and no
    error is reported; provided [bitSets] is no longer than the larger of
    [len(initialBits)] and [newNumBits], and rounding [newNumBits] up
    does not overflow [int]. *)
Theorem X8_growing_passes (a : Arch) (initialBits bitSets : list bool)
    (newNumBits : Z) :
  is_int a newNumBits → newNumBits + wordModMask a <= maxInt a →
  len initialBits <= maxInt a →
  len bitSets <= Z.max (len initialBits) newNumBits →
  (∀ w, Words.NewWords a (len initialBits) = Ok w →
     ∃ w1, Users.setBools (Words_BitSet a) w 0 initialBits = Ok w1
           ∧ ∀ w2, Words.Grow a w1 newNumBits = Ok w2 →
               Users.growing (Words_Grower a) w initialBits newNumBits
                 bitSets = Ok true)
  ∧ (∀ s, Bytes.NewBytes a (len initialBits) = Ok s →
     ∃ s1, Users.setBools (Bytes_BitSet a) s 0 initialBits = Ok s1
           ∧ ∀ s2, Bytes.Grow a s1 newNumBits = Ok s2 →
               Users.growing (Bytes_Grower a) s initialBits newNumBits
                 bitSets = Ok true).
Proof.
  intros Hm Hfit Hli Hlb. pose proof (len_nonneg initialBits) as H0.
  assert (is_int a (len initialBits)) as Hil
    by (apply small_index_is_int; lia).
  split.
  - intros w Hnew. rewrite Words_New_dense in Hnew.
    destruct (dense_new_addr a (wordShift a) (len initialBits) w
                (wordShift_nonneg a) (wordShift_small a) Hil Hnew)
      as [_ Haddr].
    destruct (setBools_reads (Words_BitSet a) (Words_addr a) len
                (Words_lawful a) initialBits w 0) as (w1 & HS & _).
    { intros k Hk. apply Haddr. lia. }
    exists w1. split; [done|]. intros w2 _.
    rewrite Words_Grower_dense.
    apply dense_growing; auto with bitset. by rewrite mask_wordShift.
  - intros s Hnew.
    destruct (dense_new_addr a byteShift (len initialBits) s
                byteShift_nonneg (byteShift_small a) Hil Hnew)
      as [_ Haddr].
    destruct (setBools_reads (Bytes_BitSet a) (Bytes_addr a) len
                (Bytes_lawful a) initialBits s 0) as (s1 & HS & _).
    { intros k Hk. apply Haddr. lia. }
    exists s1. split; [done|]. intros s2 _.
    apply (dense_growing a byteShift 8); auto with bitset.
    change (Dense.mask byteShift) with 7. pose proof (wordModMask_ge a). lia.
Qed.

Lemma X8_growing_passes_witness :
  Users.growing (Bytes_Grower Arch64) [0] [true; false] 20
    [false; true; true; false; false; false; false; false; false; true]
  = Ok true.
Proof.
  destruct (X8_growing_passes Arch64 [true; false]
              [false; true; true; false; false; false; false; false; false;
               true] 20) as [_ H].
  - vm_compute. split; congruence.
  - vm_compute. congruence.
  - vm_compute. congruence.
  - vm_compute. congruence.
  - destruct (H [0] eq_refl) as (s1 & HS & HG).
    vm_compute in HS. injection HS as HS. subst s1.
    apply (HG [1; 0; 0]). reflexivity.
Defined.

(** X9: the body of [TestInRange], on a [Words] or [Bytes] made for
    [len(bitsToSet)] bits and on any [Sparse]: it reports no error when
    [bitsToUnset] is no longer than [bitsToSet], and panics on
    [bitsToSet[bit]] when it is longer. *)
Theorem X9_in_range (a : Arch) (bitsToSet bitsToUnset : list bool)
    (m : gmap Z Z) :
  len bitsToSet <= maxInt a →
  (∀ w, Words.NewWords a (len bitsToSet) = Ok w →
     Users.inRange (Words_BitSet a) w bitsToSet bitsToUnset
     = if len bitsToUnset <=? len bitsToSet then Ok true else Panic)
  ∧ (∀ s, Bytes.NewBytes a (len bitsToSet) = Ok s →
     Users.inRange (Bytes_BitSet a) s bitsToSet bitsToUnset
     = if len bitsToUnset <=? len bitsToSet then Ok true else Panic)
  ∧ Users.inRange (Sparse_BitSet a) m bitsToSet bitsToUnset
    = (if len bitsToUnset <=? len bitsToSet then Ok true else Panic).
Proof.
  intros Hl. pose proof (len_nonneg bitsToSet) as H0.
  assert (is_int a (len bitsToSet)) as Hil
    by (apply small_index_is_int; lia).
  split; [|split].
  - intros w Hnew. rewrite Words_New_dense in Hnew.
    rewrite Words_BitSet_dense.
    apply (inRange_spec _ (Dense_addr a (wordShift a)) len);
      [apply dense_lawful; auto with bitset|].
    by apply (dense_new_addr a (wordShift a) (len bitsToSet) w);
      auto with bitset.
  - intros s Hnew.
    apply (inRange_spec (Bytes_BitSet a) (Bytes_addr a) len);
      [apply Bytes_lawful|].
    by apply (dense_new_addr a byteShift (len bitsToSet) s);
      auto with bitset.
  - apply (inRange_spec _ (Sparse_addr a) (fun _ => 0));
      [apply Sparse_lawful|].
    intros k Hk. apply small_index_is_int. lia.
Qed.

Lemma X9_in_range_witness :
  Users.inRange (Sparse_BitSet Arch64) ∅ [true; false] [false; true]
  = Ok true
  ∧ Users.inRange (Sparse_BitSet Arch64) ∅ [true] [false; true] = Panic.
Proof.
  split.
  - apply (X9_in_range Arch64 [true; false] [false; true] ∅). vm_compute.
    congruence.
  - apply (X9_in_range Arch64 [true] [false; true] ∅). vm_compute.
    congruence.
Defined.

(** X10: the same calls of [Get], [Set], [Unset] and [SetBool], all on
    indexes below [n], on a new [Words] of [n] bits, a new [Bytes] of [n]
    bits and an empty [Sparse]: none panics, and the [Get] calls answer
    the same on the three. *)
Theorem X10_call_sequences_agree (a : Arch) (n : Z) (cs : list Sparse.call)
    (w s : list Z) :
  is_int a n →
  Forall (fun c => 0 <= Users.call_index c < n) cs →
  Words.NewWords a n = Ok w → Bytes.NewBytes a n = Ok s →
  ∃ out w' s' m',
    Users.run (Words_BitSet a) cs w = Ok (w', out)
    ∧ Users.run (Bytes_BitSet a) cs s = Ok (s', out)
    ∧ Users.run (Sparse_BitSet a) cs ∅ = Ok (m', out).
Proof.
  intros Hn Hcs Hw Hs. rewrite Words_New_dense in Hw.
  rewrite Words_BitSet_dense.
  destruct (dense_new_addr a (wordShift a) n w (wordShift_nonneg a)
              (wordShift_small a) Hn Hw) as [_ Haw].
  destruct (dense_new_addr a byteShift n s byteShift_nonneg
              (byteShift_small a) Hn Hs) as [_ Has].
  assert (Forall (fun c => Sparse_addr a (∅ : gmap Z Z) (Users.call_index c))
            cs) as Fm.
  { eapply Forall_impl; [exact Hcs|]. intros c Hc. cbv beta in Hc.
    apply small_index_is_int. unfold is_int in Hn. lia. }
  destruct (run_agree (Dense_BitSet a (wordShift a) (uintptrBits a))
              (Sparse_BitSet a) (Dense_addr a (wordShift a)) len
              (Sparse_addr a) (fun _ => 0)
              (dense_lawful a _ _ (wordShift_nonneg a) (wordShift_fits a))
              (Sparse_lawful a) cs w ∅)
    as (w' & m1 & out & Rw & Rm & _); [|done|..].
  { eapply Forall_impl; [exact Hcs|]. intros c Hc. by apply Haw. }
  { intros j Hj _. cbn [BitSet.Get Dense_BitSet Sparse_BitSet].
    rewrite Sparse_get_empty.
    eapply dense_new_all_unset; eauto with bitset. }
  destruct (run_agree (Bytes_BitSet a) (Sparse_BitSet a)
              (Bytes_addr a) len (Sparse_addr a) (fun _ => 0)
              (Bytes_lawful a) (Sparse_lawful a) cs s ∅)
    as (s' & m2 & out2 & Rs & Rm2 & _); [|done|..].
  { eapply Forall_impl; [exact Hcs|]. intros c Hc. by apply Has. }
  { intros j Hj _. cbn [BitSet.Get Bytes_BitSet Sparse_BitSet].
    rewrite Sparse_get_empty, Bytes_Get_dense.
    eapply (dense_new_all_unset a byteShift 8); eauto with bitset. }
  rewrite Rm in Rm2. injection Rm2 as <- <-.
  by exists out, w', s', m1.
Qed.

Lemma X10_call_sequences_agree_witness :
  ∃ out w' s' m',
    Users.run (Words_BitSet Arch64)
      [Sparse.CSet 3; Sparse.CGet 3; Sparse.CUnset 3; Sparse.CGet 3] [0]
    = Ok (w', out)
    ∧ Users.run (Bytes_BitSet Arch64)
        [Sparse.CSet 3; Sparse.CGet 3; Sparse.CUnset 3; Sparse.CGet 3] [0]
      = Ok (s', out)
    ∧ Users.run (Sparse_BitSet Arch64)
        [Sparse.CSet 3; Sparse.CGet 3; Sparse.CUnset 3; Sparse.CGet 3] ∅
      = Ok (m', out).
Proof.
  apply (X10_call_sequences_agree Arch64 8
           [Sparse.CSet 3; Sparse.CGet 3; Sparse.CUnset 3; Sparse.CGet 3]
           [0] [0]).
  - vm_compute. split; congruence.
  - repeat constructor; vm_compute; congruence.
  - reflexivity.
  - reflexivity.
Defined.

(** ** Single calls *)

Lemma lor_pow2_set (x b : Z) :
  0 <= b → Z.testbit x b = true → Z.lor x (2 ^ b) = x.
Proof.
  intros Hb Hx. apply Z.bits_inj'. intros k Hk.
  rewrite testbit_lor_pow2 by done.
  destruct (Z.eqb_spec b k) as [<-|]; [by rewrite Hx|apply orb_false_r].
Qed.

Lemma ldiff_pow2_unset (x b : Z) :
  0 <= b → Z.testbit x b = false → Z.ldiff x (2 ^ b) = x.
Proof.
  intros Hb Hx. apply Z.bits_inj'. intros k Hk.
  rewrite testbit_ldiff_pow2 by done.
  destruct (Z.eqb_spec b k) as [<-|]; [by rewrite Hx|apply andb_true_r].
Qed.

Lemma ldiff_lor (x m : Z) : Z.ldiff (Z.lor x m) m = Z.ldiff x m.
Proof.
  apply Z.bits_inj'. intros k Hk. rewrite !Z.ldiff_spec, Z.lor_spec.
  destruct (Z.testbit x k), (Z.testbit m k); reflexivity.
Qed.

Lemma dense_set_len (n eb : Z) (s s' : list Z) (u : Z) :
  Dense.Set_ n eb s u = Ok s' → len s' = len s.
Proof.
  unfold Dense.Set_, store.
  destruct (index s (Dense.slot n u)) as [x|]; [|discriminate].
  rewrite bind_Ok.
  destruct ((0 <=? Dense.slot n u) && (Dense.slot n u <? len s));
    [|discriminate].
  intros [= <-]. apply len_insert.
Qed.

Lemma dense_unset_len (n eb : Z) (s s' : list Z) (u : Z) :
  Dense.Unset n eb s u = Ok s' → len s' = len s.
Proof.
  unfold Dense.Unset, store.
  destruct (index s (Dense.slot n u)) as [x|]; [|discriminate].
  rewrite bind_Ok.
  destruct ((0 <=? Dense.slot n u) && (Dense.slot n u <? len s));
    [|discriminate].
  intros [= <-]. apply len_insert.
Qed.

(** Calls in a row on a dense set: the length never changes, and one
    index out of range makes the whole run panic. *)
Lemma dense_run_len (a : Arch) (n eb : Z) (cs : list Sparse.call)
    (s s' : list Z) (out : list bool) :
  Users.run (Dense_BitSet a n eb) cs s = Ok (s', out) → len s' = len s.
Proof.
  revert s s' out. induction cs as [|c rest IH]; intros s s' out.
  - by intros [= <- <-].
  - destruct c as [i|i|i|i [|]];
      cbn [Users.run BitSet.Get BitSet.Set_ BitSet.Unset BitSet.SetBool
             Dense_BitSet].
    + destruct (Dense.Get n eb s (to_uint a i)) as [b|]; [|discriminate].
      rewrite bind_Ok.
      destruct (Users.run (Dense_BitSet a n eb) rest s) as [[s1 o1]|] eqn:E;
        [|discriminate].
      rewrite bind_Ok. intros [= <- <-]. by apply (IH s s1 o1).
    + destruct (Dense.Set_ n eb s (to_uint a i)) as [s1|] eqn:E;
        [|discriminate].
      rewrite bind_Ok. intros H. rewrite (IH _ _ _ H).
      by apply dense_set_len in E.
    + destruct (Dense.Unset n eb s (to_uint a i)) as [s1|] eqn:E;
        [|discriminate].
      rewrite bind_Ok. intros H. rewrite (IH _ _ _ H).
      by apply dense_unset_len in E.
    + destruct (Dense.Set_ n eb s (to_uint a i)) as [s1|] eqn:E;
        [|discriminate].
      rewrite bind_Ok. intros H. rewrite (IH _ _ _ H).
      by apply dense_set_len in E.
    + destruct (Dense.Unset n eb s (to_uint a i)) as [s1|] eqn:E;
        [|discriminate].
      rewrite bind_Ok. intros H. rewrite (IH _ _ _ H).
      by apply dense_unset_len in E.
Qed.

Lemma dense_run_panics (a : Arch) (n eb : Z) (cs : list Sparse.call)
    (s : list Z) :
  Exists (fun c => len s <= Dense.slot n (to_uint a (Users.call_index c))) cs →
  Users.run (Dense_BitSet a n eb) cs s = Panic.
Proof.
  revert s. induction cs as [|c rest IH]; intros s Hex.
  - inversion Hex.
  - assert (∀ s1, len s1 = len s → Exists
              (fun c => len s <= Dense.slot n (to_uint a (Users.call_index c)))
              rest → Users.run (Dense_BitSet a n eb) rest s1 = Panic) as IH'.
    { intros s1 Hl Hr. apply IH. by rewrite Hl. }
    inversion Hex as [? ? Hc|? ? Hr]; subst.
    + destruct (dense_out_of_range n eb s _ Hc) as (HG & HS & HU).
      destruct c as [i|i|i|i [|]];
        cbn [Users.run BitSet.Get BitSet.Set_ BitSet.Unset BitSet.SetBool
               Dense_BitSet Users.call_index] in *;
        by rewrite ?HG, ?HS, ?HU.
    + destruct c as [i|i|i|i [|]];
        cbn [Users.run BitSet.Get BitSet.Set_ BitSet.Unset BitSet.SetBool
               Dense_BitSet].
      * destruct (Dense.Get n eb s (to_uint a i)) as [b|]; [|done].
        rewrite bind_Ok. by rewrite (IH' s).
      * destruct (Dense.Set_ n eb s (to_uint a i)) as [s1|] eqn:E; [|done].
        rewrite bind_Ok. apply IH'; [|done]. by apply dense_set_len in E.
      * destruct (Dense.Unset n eb s (to_uint a i)) as [s1|] eqn:E; [|done].
        rewrite bind_Ok. apply IH'; [|done]. by apply dense_unset_len in E.
      * destruct (Dense.Set_ n eb s (to_uint a i)) as [s1|] eqn:E; [|done].
        rewrite bind_Ok. apply IH'; [|done]. by apply dense_set_len in E.
      * destruct (Dense.Unset n eb s (to_uint a i)) as [s1|] eqn:E; [|done].
        rewrite bind_Ok. apply IH'; [|done]. by apply dense_unset_len in E.
Qed.

(** A write that changes nothing, on the shared algorithm. *)
Lemma dense_set_redundant (n eb : Z) (s : list Z) (u : Z) :
  0 <= n → 2 ^ n <= eb → 0 <= u →
  Dense.Get n eb s u = Ok true → Dense.Set_ n eb s u = Ok s.
Proof.
  intros Hn Heb Hu HG.
  destruct (index s (Dense.slot n u)) as [x|] eqn:Hx;
    [|by unfold Dense.Get in HG; rewrite Hx in HG].
  rewrite (Get_read n eb Hn Heb s u x Hx) in HG. injection HG as HG.
  rewrite (Set_write n eb Hn Heb s u x Hu Hx).
  rewrite lor_pow2_set; [|apply off_range; lia|done].
  f_equal. apply list_insert_id. by apply index_Ok in Hx as [_ Hx].
Qed.

Lemma dense_unset_redundant (n eb : Z) (s : list Z) (u : Z) :
  0 <= n → 2 ^ n <= eb → 0 <= u →
  Dense.Get n eb s u = Ok false → Dense.Unset n eb s u = Ok s.
Proof.
  intros Hn Heb Hu HG.
  destruct (index s (Dense.slot n u)) as [x|] eqn:Hx;
    [|by unfold Dense.Get in HG; rewrite Hx in HG].
  rewrite (Get_read n eb Hn Heb s u x Hx) in HG. injection HG as HG.
  rewrite (Unset_write n eb Hn Heb s u x Hu Hx).
  rewrite ldiff_pow2_unset; [|apply off_range; lia|done].
  f_equal. apply list_insert_id. by apply index_Ok in Hx as [_ Hx].
Qed.

(** X11: on every bitset and for an index [i] the set can address,
    [SetBool(i, b)] succeeds, [Get(i)] then answers [b], every other
    addressable bit answers as before, and a dense set keeps its
    length. *)
Theorem X11_setbool_get (a : Arch) (i : Z) (b : bool) (w s : list Z)
    (m : gmap Z Z) :
  is_int a i →
  (Words.word a i < len w →
     ∃ w', Words.SetBool a w i b = Ok w' ∧ len w' = len w
           ∧ Words.Get a w' i = Ok b
           ∧ ∀ j, Words_addr a w j → j ≠ i →
               Words.Get a w' j = Words.Get a w j)
  ∧ (Bytes.byte a i < len s →
     ∃ s', Bytes.SetBool a s i b = Ok s' ∧ len s' = len s
           ∧ Bytes.Get a s' i = Ok b
           ∧ ∀ j, Bytes_addr a s j → j ≠ i →
               Bytes.Get a s' j = Bytes.Get a s j)
  ∧ Sparse.Get a (Sparse.SetBool a m i b) i = b
  ∧ (∀ j, is_int a j → j ≠ i →
       Sparse.Get a (Sparse.SetBool a m i b) j = Sparse.Get a m j).
Proof.
  intros Hi. split; [|split; [|split]].
  - intros Hlt.
    destruct (setbool_reads (Words_BitSet a) (Words_addr a) len
                (Words_lawful a) w i b (conj Hi Hlt))
      as (w' & HS & Hl & _ & HR).
    exists w'. split; [exact HS|]. split; [done|]. split.
    + specialize (HR i (conj Hi Hlt)). by rewrite decide_True in HR.
    + intros j Hj Hne. specialize (HR j Hj).
      by rewrite decide_False in HR.
  - intros Hlt.
    destruct (setbool_reads (Bytes_BitSet a) (Bytes_addr a) len
                (Bytes_lawful a) s i b (conj Hi Hlt))
      as (s' & HS & Hl & _ & HR).
    exists s'. split; [exact HS|]. split; [done|]. split.
    + specialize (HR i (conj Hi Hlt)). by rewrite decide_True in HR.
    + intros j Hj Hne. specialize (HR j Hj).
      by rewrite decide_False in HR.
  - destruct b; [apply Sparse_Set_Get|apply Sparse_Unset_Get].
  - intros j Hj Hne.
    destruct b; [by apply Sparse_Set_other|by apply Sparse_Unset_other].
Qed.

Lemma X11_setbool_get_witness :
  ∃ w', Words.SetBool Arch32 [0; 8] 35 false = Ok w' ∧ len w' = len [0; 8]
        ∧ Words.Get Arch32 w' 35 = Ok false
        ∧ ∀ j, Words_addr Arch32 [0; 8] j → j ≠ 35 →
            Words.Get Arch32 w' j = Words.Get Arch32 [0; 8] j.
Proof.
  apply (X11_setbool_get Arch32 35 false [0; 8] [] ∅); vm_compute;
    try split; congruence.
Defined.

(** X12: calls of the interface in a row on a [Words] or a [Bytes]: when
    every index is addressable none panics; when the word or byte index
    of one call is out of range the run panics; and a run that does not
    panic leaves the length as it was: no call grows or shrinks the
    slice. *)
Theorem X12_dense_runs (a : Arch) (cs : list Sparse.call) (w s : list Z) :
  ((Forall (fun c => Words_addr a w (Users.call_index c)) cs →
      ∃ w' out, Users.run (Words_BitSet a) cs w = Ok (w', out))
   ∧ (Exists (fun c => len w <= Words.word a (Users.call_index c)) cs →
      Users.run (Words_BitSet a) cs w = Panic)
   ∧ (∀ w' out, Users.run (Words_BitSet a) cs w = Ok (w', out) →
        len w' = len w))
  ∧ ((Forall (fun c => Bytes_addr a s (Users.call_index c)) cs →
        ∃ s' out, Users.run (Bytes_BitSet a) cs s = Ok (s', out))
     ∧ (Exists (fun c => len s <= Bytes.byte a (Users.call_index c)) cs →
        Users.run (Bytes_BitSet a) cs s = Panic)
     ∧ (∀ s' out, Users.run (Bytes_BitSet a) cs s = Ok (s', out) →
          len s' = len s)).
Proof.
  split; (split; [|split]).
  - intros Hall.
    destruct (run_succeeds (Words_BitSet a) (Words_addr a) len
                (Words_lawful a) cs w Hall) as (w' & out & HR & _).
    by exists w', out.
  - intros Hex. rewrite Words_BitSet_dense. by apply dense_run_panics.
  - intros w' out. rewrite Words_BitSet_dense. apply dense_run_len.
  - intros Hall.
    destruct (run_succeeds (Bytes_BitSet a) (Bytes_addr a) len
                (Bytes_lawful a) cs s Hall) as (s' & out & HR & _).
    by exists s', out.
  - intros Hex. by apply (dense_run_panics a byteShift 8).
  - intros s' out. apply (dense_run_len a byteShift 8).
Qed.

Lemma X12_dense_runs_witness :
  Users.run (Bytes_BitSet Arch64)
    [Sparse.CSet 1; Sparse.CGet 1; Sparse.CSetBool 8 true] [0] = Panic.
Proof.
  apply (X12_dense_runs Arch64
           [Sparse.CSet 1; Sparse.CGet 1; Sparse.CSetBool 8 true] [] [0]).
  do 2 apply Exists_cons_tl. apply Exists_cons_hd. vm_compute. congruence.
Defined.

(** ** [Sparse]: compaction *)

Lemma Sparse_off_nonneg (a : Arch) (i : Z) :
  0 <= to_uint a i mod 2 ^ wordShift a.
Proof. apply off_range, wordShift_nonneg. Qed.

Lemma compact_read_zero (s : gmap Z Z) (k : Z) :
  Sparse.compact s → Sparse.read s k = 0 → s !! k = None.
Proof.
  intros Hc Hz. destruct (s !! k) as [x|] eqn:E; [|done].
  exfalso. apply (proj1 (Hc k)); [by rewrite E|done].
Qed.

Lemma read_nonzero (s : gmap Z Z) (k : Z) :
  Sparse.read s k ≠ 0 → s !! k = Some (Sparse.read s k).
Proof.
  unfold Sparse.read. destruct (s !! k) as [x|]; [done|]. simpl. lia.
Qed.

(** X13: on a [Sparse] that keeps no zero word, [Set(i)] of a bit that
    is unset followed by [Unset(i)] gives back the map it started from:
    the word is deleted again when it held no other bit, so the number of
    keys returns to what it was. *)
Theorem X13_sparse_set_unset_restores (a : Arch) (m : gmap Z Z) (i : Z) :
  Sparse.compact m → Sparse.Get a m i = false →
  Sparse.Unset a (Sparse.Set_ a m i) i = m
  ∧ size (Sparse.Unset a (Sparse.Set_ a m i) i) = size m.
Proof.
  intros Hc HG. enough (Sparse.Unset a (Sparse.Set_ a m i) i = m) as E
    by (by rewrite E).
  rewrite Sparse_Get_read in HG.
  pose proof (Sparse_off_nonneg a i) as Ho.
  unfold Sparse.Unset, Sparse.Set_. cbv zeta.
  rewrite lookup_insert_eq, ldiff_lor, Sparse_bit_pow.
  rewrite ldiff_pow2_unset by done.
  destruct (Z.eqb_spec (Sparse.read m (Sparse.key a i)) 0) as [Hz|Hz].
  - apply delete_insert_id. by apply compact_read_zero.
  - rewrite insert_insert_eq. apply insert_id. by apply read_nonzero.
Qed.

Lemma X13_sparse_set_unset_restores_witness :
  Sparse.Unset Arch64 (Sparse.Set_ Arch64 ∅ 70) 70 = ∅
  ∧ size (Sparse.Unset Arch64 (Sparse.Set_ Arch64 ∅ 70) 70)
    = size (∅ : gmap Z Z).
Proof.
  apply (X13_sparse_set_unset_restores Arch64 ∅ 70).
  - intros k. unfold Sparse.read. rewrite lookup_empty.
    split; [intros [? [=]] | done].
  - apply Sparse_get_empty.
Defined.

(** X14: a write that asks for what is already so changes nothing:
    [Set(i)] of a bit that reads set and [Unset(i)] of a bit that reads
    unset return the very same slice on [Words] and [Bytes] and the very
    same map on [Sparse], for [Unset] provided the map keeps no zero
    word. *)
Theorem X14_redundant_writes (a : Arch) (i : Z) (w s : list Z)
    (m : gmap Z Z) :
  (Words.Get a w i = Ok true → Words.Set_ a w i = Ok w)
  ∧ (Words.Get a w i = Ok false → Words.Unset a w i = Ok w)
  ∧ (Bytes.Get a s i = Ok true → Bytes.Set_ a s i = Ok s)
  ∧ (Bytes.Get a s i = Ok false → Bytes.Unset a s i = Ok s)
  ∧ (Sparse.Get a m i = true → Sparse.Set_ a m i = m)
  ∧ (Sparse.compact m → Sparse.Get a m i = false → Sparse.Unset a m i = m).
Proof.
  pose proof (to_uint_nonneg a i) as Hu.
  pose proof (Sparse_off_nonneg a i) as Ho.
  repeat split.
  - rewrite Words_Get_dense, Words_Set_dense.
    apply dense_set_redundant; auto with bitset.
  - rewrite Words_Get_dense, Words_Unset_dense.
    apply dense_unset_redundant; auto with bitset.
  - rewrite Bytes_Get_dense, Bytes_Set_dense.
    apply dense_set_redundant; auto with bitset.
  - rewrite Bytes_Get_dense, Bytes_Unset_dense.
    apply dense_unset_redundant; auto with bitset.
  - rewrite Sparse_Get_read. intros HG. unfold Sparse.Set_.
    rewrite Sparse_bit_pow, lor_pow2_set by done.
    apply insert_id, read_nonzero. intros Hz.
    rewrite Hz, Z.bits_0 in HG. discriminate.
  - rewrite Sparse_Get_read. intros Hc HG. unfold Sparse.Unset. cbv zeta.
    destruct (m !! Sparse.key a i) as [x|] eqn:E; [|done].
    assert (Sparse.read m (Sparse.key a i) = x) as Ex
      by (unfold Sparse.read; by rewrite E).
    rewrite Ex in HG.
    rewrite Sparse_bit_pow, ldiff_pow2_unset by done.
    destruct (Z.eqb_spec x 0) as [Hz|Hz].
    + exfalso. apply (proj1 (Hc (Sparse.key a i))); [by rewrite E|].
      by rewrite Ex.
    + by apply insert_id.
Qed.

Lemma X14_redundant_writes_witness :
  Words.Set_ Arch64 [4] 2 = Ok [4] ∧ Words.Unset Arch64 [4] 3 = Ok [4].
Proof.
  split.
  - apply (X14_redundant_writes Arch64 2 [4] [] ∅). reflexivity.
  - apply (X14_redundant_writes Arch64 3 [4] [] ∅). reflexivity.
Defined.

(** X15: the keys of a [Sparse]: [Set(i)] adds the key of [i]'s word and
    no other; [Unset(i)] adds none and removes at most the key of [i]'s
    word, which it removes exactly when no bit of the word is left. *)
Theorem X15_sparse_keys (a : Arch) (m : gmap Z Z) (i : Z) :
  dom (Sparse.Set_ a m i) = {[Sparse.key a i]} ∪ dom m
  ∧ dom (Sparse.Unset a m i) ⊆ dom m
  ∧ dom m ∖ {[Sparse.key a i]} ⊆ dom (Sparse.Unset a m i)
  ∧ (Sparse.key a i ∈ dom (Sparse.Unset a m i)
     ↔ Z.ldiff (Sparse.read m (Sparse.key a i)) (Sparse.bit a i) ≠ 0).
Proof.
  split; [apply dom_insert_L|].
  unfold Sparse.Unset, Sparse.read. cbv zeta.
  generalize (Sparse.key a i) (Sparse.bit a i). intros k b.
  destruct (m !! k) as [x|] eqn:E; cbn [default].
  - assert (k ∈ dom m) as Hin by (apply elem_of_dom; eauto).
    destruct (Z.eqb_spec (Z.ldiff x b) 0) as [Hz|Hz].
    + rewrite dom_delete_L. split; [apply subseteq_difference_l; done|].
      split; [done|]. rewrite elem_of_difference, elem_of_singleton.
      split; [by intros [_ ?]|done].
    + rewrite dom_insert_L. split; [|split].
      * apply union_subseteq. split; [by apply singleton_subseteq_l|done].
      * etrans; [apply subseteq_difference_l; reflexivity|].
        apply union_subseteq_r.
      * split; [done|]. intros _. apply elem_of_union_l.
        by apply elem_of_singleton.
  - split; [done|]. split; [apply subseteq_difference_l; done|].
    rewrite Z.ldiff_0_l, elem_of_dom, E. split; [intros [? [=]]|done].
Qed.

(** X16: the key of a [Sparse] word is never negative; for an index from
    zero up it is the index divided by the word size, and for a negative
    index it lies above the key of every index from zero up, so the two
    never share a word. *)
Theorem X16_sparse_key_range (a : Arch) (i : Z) :
  is_int a i →
  0 <= Sparse.key a i
  ∧ (0 <= i → Sparse.key a i = i / wordBits a)
  ∧ (i < 0 → maxInt a / wordBits a < Sparse.key a i).
Proof.
  intros Hi. rewrite Sparse_key_slot, slot_div by apply wordShift_nonneg.
  rewrite wordShift_pow, wordBits_eq. arch_lia a.
Qed.

Lemma X16_sparse_key_range_witness :
  0 <= Sparse.key Arch64 (-1)
  ∧ (0 <= -1 → Sparse.key Arch64 (-1) = -1 / wordBits Arch64)
  ∧ (-1 < 0 → maxInt Arch64 / wordBits Arch64 < Sparse.key Arch64 (-1)).
Proof.
  apply (X16_sparse_key_range Arch64 (-1)). vm_compute. split; congruence.
Defined.
